(** * baseplate.config: configuration parsing and validation

    A shallow embedding of [baseplate/config.py]: the primitive coercers,
    the combinators, the three parser realisations ([SpecParser],
    [CallableParser], [DictOf]) and the result namespace, followed by the
    properties of the configuration engine.

    Python text is embedded as [string]; the embedding covers ASCII text
    (one [ascii] per character).  A raised exception is a value of [exn];
    effectful code lives in a small writer/error monad [M] whose log
    records every access to the raw configuration and every invocation
    of an instrumented callable.  Python's [re] module is a parameter of
    the parsers; [re_compile_literal] is its behaviour on the patterns
    built from key paths without metacharacters. *)

From Stdlib Require Import String Ascii List ZArith Lia Bool SpecFloat DecimalString.
From Stdlib Require DecimalPos DecimalZ.
From Stdlib Require QArith Qpower Lqa.
Import ListNotations.

Set Warnings "-register-all".

Local Open Scope string_scope.
Local Open Scope Z_scope.

Module config.

(** ** Text primitives of the Python runtime *)

Definition code (c : ascii) : nat := nat_of_ascii c.

(** [str.isspace] on ASCII: used by [str.split()] and [str.strip()]. *)
Definition isspace (c : ascii) : bool :=
  let n := code c in
  ((9 <=? n)%nat && (n <=? 13)%nat) || ((28 <=? n)%nat && (n <=? 32)%nat).

(** Whitespace skipped by [int(text)] around an ASCII literal. *)
Definition int_isspace (c : ascii) : bool :=
  let n := code c in
  ((9 <=? n)%nat && (n <=? 13)%nat) || (n =? 32)%nat.

Definition isdigit (c : ascii) : bool :=
  let n := code c in (48 <=? n)%nat && (n <=? 57)%nat.

Definition digit_value (c : ascii) : Z := Z.of_nat (code c) - 48.

(** [c in text] for a one-character [c]. *)
Fixpoint contains (c : ascii) (text : string) : bool :=
  match text with
  | EmptyString => false
  | String a rest => Ascii.eqb a c || contains c rest
  end.

(** [text.partition(sep)] for a one-character separator: the text before
    the first separator, the separator found (empty when there is none)
    and the text after it. *)
Fixpoint partition (sep : ascii) (text : string) : string * string * string :=
  match text with
  | EmptyString => (EmptyString, EmptyString, EmptyString)
  | String a rest =>
      if Ascii.eqb a sep then (EmptyString, String sep EmptyString, rest)
      else
        match partition sep rest with
        | (before, found, after) => (String a before, found, after)
        end
  end.

(** [text.split()]: the maximal runs of non-whitespace characters.
    [current] is the token being read. *)
Fixpoint split_from (current text : string) : list string :=
  match text with
  | EmptyString =>
      match current with EmptyString => [] | _ => [current] end
  | String a rest =>
      if isspace a then
        match current with
        | EmptyString => split_from EmptyString rest
        | _ => current :: split_from EmptyString rest
        end
      else split_from (current ++ String a EmptyString) rest
  end.

Definition split (text : string) : list string := split_from EmptyString text.

(** [text.rstrip(chars)] for a set of characters given as a predicate. *)
Fixpoint rstrip (chars : ascii -> bool) (text : string) : string :=
  match text with
  | EmptyString => EmptyString
  | String a rest =>
      match rstrip chars rest with
      | EmptyString => if chars a then EmptyString else String a EmptyString
      | kept => String a kept
      end
  end.

Fixpoint lstrip (chars : ascii -> bool) (text : string) : string :=
  match text with
  | EmptyString => EmptyString
  | String a rest => if chars a then lstrip chars rest else text
  end.

(** [text.replace(".", r"\.")]. *)
Fixpoint escape_dots (text : string) : string :=
  match text with
  | EmptyString => EmptyString
  | String a rest =>
      if Ascii.eqb a "." then String "\" (String "." (escape_dots rest))
      else String a (escape_dots rest)
  end.

Fixpoint repeat_char (c : ascii) (n : nat) : string :=
  match n with
  | O => EmptyString
  | S k => String c (repeat_char c k)
  end.

(** ** Literal prefixes and the [re] module *)

(** [text] without its prefix [prefix], when it starts with it. *)
Fixpoint strip_prefix (prefix text : string) : option string :=
  match prefix, text with
  | EmptyString, _ => Some text
  | String a prefix', String b text' =>
      if Ascii.eqb a b then strip_prefix prefix' text' else None
  | String _ _, EmptyString => None
  end.

(** The run of characters up to the next ['.'] or the end of the text. *)
Fixpoint segment (text : string) : string :=
  match text with
  | EmptyString => EmptyString
  | String a rest => if Ascii.eqb a "." then EmptyString else String a (segment rest)
  end.

(** Characters with a special meaning in a regular expression, the dot
    apart (which [DictOf.parse] escapes). *)
Definition re_meta (c : ascii) : bool :=
  existsb (Ascii.eqb c)
    ["\"; "^"; "$"; "*"; "+"; "?"; "{"; "}"; "["; "]"; "|"; "("; ")"]%char.

(** A key path none of whose characters is special. *)
Fixpoint plain (text : string) : bool :=
  match text with
  | EmptyString => true
  | String a rest => negb (re_meta a) && plain rest
  end.

(** Group 1 of [^root([^.]+)] searched in [key], for a literal [root]:
    the key starts with [root] and goes on with at least one character
    other than ['.']; the group is the longest such run. *)
Definition literal_search (root key : string) : option string :=
  match strip_prefix root key with
  | Some rest =>
      match segment rest with
      | EmptyString => None
      | subkey => Some subkey
      end
  | None => None
  end.

(** Reads a pattern body made of plain characters and escaped dots up
    to the final group [([^.]+)], and returns the literal it spells. *)
Fixpoint literal_of_pattern (body : string) : option string :=
  if String.eqb body "([^.]+)" then Some EmptyString
  else
    match body with
    | EmptyString => None
    | String a rest =>
        if Ascii.eqb a "\" then
          match rest with
          | String b rest' =>
              if Ascii.eqb b "." then
                option_map (String ".") (literal_of_pattern rest')
              else None
          | EmptyString => None
          end
        else if re_meta a || Ascii.eqb a "." then None
        else option_map (String a) (literal_of_pattern rest)
    end.

(** ** Exceptions, values and the effect monad *)

(** What a [raise] can carry.  [ValueError] stands for the class and its
    subclasses, [OtherException] for any other class derived from
    [Exception] (and not from [ValueError]), and [BaseExceptionOnly] for
    the classes derived from [BaseException] but not from [Exception]:
    [SystemExit], [KeyboardInterrupt], [GeneratorExit]. *)
Inductive exn : Type :=
| ValueError (msg : string)
| AssertionError (msg : string)
| OverflowError (msg : string)
| NotImplementedError
| ConfigurationError (key : string) (error : exn)
| OtherException (cls msg : string)
| BaseExceptionOnly (cls msg : string).

(** [isinstance(exc, Exception)], the test of [except Exception]. *)
Definition is_Exception (e : exn) : bool :=
  match e with BaseExceptionOnly _ _ => false | _ => true end.

(** [isinstance(exc, ValueError)], the test of [except ValueError]. *)
Definition is_ValueError (e : exn) : bool :=
  match e with ValueError _ => true | _ => false end.

(** [str(exc)]; [ConfigurationError.__init__] passes
    [f"{key}: {error}"] to [Exception.__init__]. *)
Fixpoint exn_str (e : exn) : string :=
  match e with
  | ValueError msg => msg
  | AssertionError msg => msg
  | OverflowError msg => msg
  | NotImplementedError => EmptyString
  | ConfigurationError key error => key ++ ": " ++ exn_str error
  | OtherException _ msg => msg
  | BaseExceptionOnly _ msg => msg
  end.

Inductive outcome (A : Type) : Type :=
| Returns (a : A)
| Raises (e : exn).
Arguments Returns {A} a.
Arguments Raises {A} e.

(** What a run leaves in the log. *)
Inductive event : Type :=
| RawGet (key : string)          (* raw_config.get(key, "") *)
| RawKeys                        (* for key in raw_config *)
| Invoked (name text : string).  (* an instrumented callable was called *)

Definition M (A : Type) : Type := (list event * outcome A)%type.

Definition ret {A} (a : A) : M A := ([], Returns a).
Definition raise {A} (e : exn) : M A := ([], Raises e).
Definition tell (log : list event) : M unit := (log, Returns tt).

Definition bind {A B} (m : M A) (k : A -> M B) : M B :=
  match m with
  | (log, Returns a) => let (log', r) := k a in ((log ++ log')%list, r)
  | (log, Raises e) => (log, Raises e)
  end.

Definition lift {A} (o : outcome A) : M A := ([], o).

Notation "x <- m ;; k" := (bind m (fun x => k))
  (at level 61, m at next level, right associativity).
Notation "m ;;; k" := (bind m (fun _ => k))
  (at level 61, right associativity).

(** [try: body  except ValueError: handler]. *)
Definition except_ValueError {A} (body handler : M A) : M A :=
  match body with
  | (log, Raises e) =>
      if is_ValueError e then let (log', r) := handler in ((log ++ log')%list, r)
      else (log, Raises e)
  | done => done
  end.

(** [try: body  except Exception as exc: raise wrap(exc)]. *)
Definition except_Exception {A} (body : M A) (wrap : exn -> exn) : M A :=
  match body with
  | (log, Raises e) =>
      if is_Exception e then (log, Raises (wrap e)) else (log, Raises e)
  | done => done
  end.

(** [datetime.timedelta], normalised as CPython stores it. *)
Record timedelta : Type := mk_timedelta
  { days : Z; seconds : Z; microseconds : Z }.

Definition total_microseconds (d : timedelta) : Z :=
  (days d * 86400 + seconds d) * 1000000 + microseconds d.

Inductive AddressFamily : Type := AF_UNIX | AF_INET.

Record InternetAddress : Type := mk_InternetAddress
  { host : string; port : Z }.

(** [Union[InternetAddress, str]]. *)
Inductive endpoint_address : Type :=
| Internet (a : InternetAddress)
| Path (p : string).

Record EndpointConfiguration : Type := mk_EndpointConfiguration
  { family : AddressFamily; address : endpoint_address }.

(** The Python objects a parse can produce. *)
Inductive value : Type :=
| VNone
| VInt (n : Z)
| VStr (s : string)
| VTimedelta (d : timedelta)
| VEndpoint (e : EndpointConfiguration)
| VNamespace (fields : list (string * value))
| VAttribute (name : string)     (* an attribute found on the class, e.g. a bound method *)
| VObject (repr : string).       (* any other object *)

(** A coercer or combinator result: [Callable[[str], T]]. *)
Definition callable : Type := string -> M value.

(** A callable instrumented to record each of its invocations. *)
Definition traced (name : string) (f : callable) : callable :=
  fun text => tell [Invoked name text] ;;; f text.

(** [re.compile] on the patterns that [DictOf.parse] builds from a plain
    key path.  Other patterns are outside this reference engine, which
    reports them with an error of its own. *)
Definition re_compile_literal (pattern : string) : outcome (string -> option string) :=
  match pattern with
  | String a body =>
      if Ascii.eqb a "^" then
        match literal_of_pattern body with
        | Some root => Returns (literal_search root)
        | None => Raises (OtherException "re.error" "pattern not covered")
        end
      else Raises (OtherException "re.error" "pattern not covered")
  | EmptyString => Raises (OtherException "re.error" "pattern not covered")
  end.

(** ** Numbers *)

(** The digits of a base-10 literal, with single underscores allowed
    between digits.  [after_digit] tells whether the previous character
    was a digit. *)
Fixpoint int_digits (text : string) (acc : Z) (after_digit : bool) : option Z :=
  match text with
  | EmptyString => if after_digit then Some acc else None
  | String a rest =>
      if isdigit a then int_digits rest (10 * acc + digit_value a) true
      else if Ascii.eqb a "_" then
        if after_digit then int_digits rest acc false else None
      else None
  end.

Definition int_literal (text : string) : option Z :=
  let body := rstrip int_isspace (lstrip int_isspace text) in
  match body with
  | String "+" digits => int_digits digits 0 false
  | String "-" digits => option_map Z.opp (int_digits digits 0 false)
  | _ => int_digits body 0 false
  end.

(** The builtin [int(text)] (base 10) on ASCII text, as a conversion
    without bound on the number of digits (CPython 3.11 and later
    refuse, by default, texts of more than 4300 digits).  The message
    of the failure quotes the text as it is, which is its [repr] when
    the text has no quote, backslash or control character. *)
Definition int (text : string) : outcome Z :=
  match int_literal text with
  | Some n => Returns n
  | None =>
      Raises (ValueError ("invalid literal for int() with base 10: '" ++ text ++ "'"))
  end.

Definition decimal (n : Z) : string := NilZero.string_of_int (Z.to_int n).

(** CPython's [microseconds_to_delta]: normalise a count of
    microseconds, the day count being first a C [int] and then within
    the range of [timedelta]. *)
Definition microseconds_to_delta (us : Z) : outcome timedelta :=
  let s := us / 1000000 in
  let d := s / 86400 in
  if (d <? - 2147483648) || (2147483647 <? d) then
    Raises (OverflowError "Python int too large to convert to C int")
  else if (d <? - 999999999) || (999999999 <? d) then
    Raises (OverflowError ("days=" ++ decimal d ++ "; must have magnitude <= 999999999"))
  else Returns (mk_timedelta d (s mod 86400) (us mod 1000000)).

(** A Python number: [scale_by_unit] mixes [int] and [float] scales. *)
Inductive number : Type :=
| PyInt (n : Z)
| PyFloat (f : spec_float).

(** IEEE 754 binary64, as [SpecFloat] computes it. *)
Definition float_of_int (n : Z) : outcome spec_float :=
  match binary_normalize 53 1024 n 0 false with
  | S754_infinity _ => Raises (OverflowError "int too large to convert to float")
  | f => Returns f
  end.

Definition float_mul : spec_float -> spec_float -> spec_float := SFmul 53 1024.

(** The literal [0.001], i.e. [0x1.0624dd2f1a9fcp-10]. *)
Definition float_0_001 : spec_float := S754_finite false 4611686018427388 (-62).

Definition float_1e6 : spec_float := binary_normalize 53 1024 1000000 0 false.

(** Round [n / 2^k] to the nearest integer, ties to even. *)
Definition round_half_even (n : Z) (k : Z) : Z :=
  let q := n / 2 ^ k in
  let r := n mod 2 ^ k in
  match Z.compare (2 * r) (2 ^ k) with
  | Lt => q
  | Gt => q + 1
  | Eq => if Z.even q then q else q + 1
  end.

(** [datetime.timedelta(seconds=f)] for a float [f] (CPython's [accum]
    and [delta_new]): the whole seconds are converted exactly, the
    fraction is scaled to microseconds in floating point and the sum is
    rounded to the nearest microsecond, ties to even. *)
Definition timedelta_of_float (f : spec_float) : outcome timedelta :=
  match f with
  | S754_nan => Raises (ValueError "cannot convert float NaN to integer")
  | S754_infinity _ => Raises (OverflowError "cannot convert float infinity to integer")
  | S754_zero _ => microseconds_to_delta 0
  | S754_finite s m e =>
      let signed z := if s then - z else z in
      if 0 <=? e then microseconds_to_delta (signed (Zpos m * 2 ^ e) * 1000000)
      else
        let intpart := signed (Zpos m / 2 ^ (- e)) in
        let fracpart :=
          binary_normalize 53 1024 (signed (Zpos m mod 2 ^ (- e))) e false in
        match float_mul float_1e6 fracpart with
        | S754_finite s' m' e' =>
            let signed' z := if s' then - z else z in
            if 0 <=? e' then
              microseconds_to_delta (intpart * 1000000 + signed' (Zpos m' * 2 ^ e'))
            else
              microseconds_to_delta
                (round_half_even
                   (intpart * 1000000 * 2 ^ (- e') + signed' (Zpos m')) (- e'))
        | _ => microseconds_to_delta (intpart * 1000000)
        end
  end.

(** [datetime.timedelta(seconds=count * scale)]. *)
Definition timedelta_seconds (count : Z) (scale : number) : outcome timedelta :=
  match scale with
  | PyInt k => microseconds_to_delta (count * k * 1000000)
  | PyFloat f =>
      match float_of_int count with
      | Returns c => timedelta_of_float (float_mul c f)
      | Raises e => Raises e
      end
  end.

(** ** Coercers and combinators *)

(** [scale_by_unit] of [Timespan], a dictionary lookup. *)
Definition scale_by_unit (unit : string) : option number :=
  if String.eqb unit "millisecond" then Some (PyFloat float_0_001)
  else if String.eqb unit "second" then Some (PyInt 1)
  else if String.eqb unit "minute" then Some (PyInt 60)
  else if String.eqb unit "hour" then Some (PyInt (60 * 60))
  else if String.eqb unit "day" then Some (PyInt (24 * 60 * 60))
  else None.

Definition Integer (text : string) : M value :=
  n <- lift (int text) ;; ret (VInt n).

Definition Endpoint (text : string) : M value :=
  match text with
  | EmptyString => raise (ValueError "no endpoint specified")
  | _ =>
      if contains "/" text then
        ret (VEndpoint (mk_EndpointConfiguration AF_UNIX (Path text)))
      else
        match partition ":" text with
        | (host, sep, port) =>
            if negb (String.eqb sep ":") then
              raise (ValueError "no port specified")
            else
              n <- lift (int port) ;;
              ret (VEndpoint (mk_EndpointConfiguration AF_INET
                                (Internet (mk_InternetAddress host n))))
        end
  end.

Definition Timespan (text : string) : M value :=
  match split text with
  | [count_text; unit] =>
      count <- lift (int count_text) ;;
      let unit := rstrip (Ascii.eqb "s") unit in  (* depluralize *)
      match scale_by_unit unit with
      | None => raise (ValueError "unknown unit")
      | Some scale =>
          d <- lift (timedelta_seconds count scale) ;; ret (VTimedelta d)
      end
  | _ => raise (ValueError "invalid specification")
  end.

Definition Optional (item_parser : callable) (default : value) : callable :=
  fun text =>
    match text with
    | EmptyString => ret default
    | _ => item_parser text
    end.

Definition Fallback (primary_parser fallback_parser : callable) : callable :=
  fun text => except_ValueError (primary_parser text) (fallback_parser text).

Definition String (text : string) : M value :=
  match text with
  | EmptyString => raise (ValueError "no value specified")
  | _ => ret (VStr text)
  end.

(** ** Raw configuration and result namespace *)

(** A Python [dict] with string keys, in insertion order. *)
Definition dict (V : Type) : Type := list (string * V).

Fixpoint dict_get {V} (d : dict V) (key : string) : option V :=
  match d with
  | [] => None
  | (k, v) :: rest => if String.eqb k key then Some v else dict_get rest key
  end.

(** [d[key] = v]: an existing key keeps its position. *)
Fixpoint dict_set {V} (d : dict V) (key : string) (v : V) : dict V :=
  match d with
  | [] => [(key, v)]
  | (k, x) :: rest =>
      if String.eqb k key then (k, v) :: rest else (k, x) :: dict_set rest key v
  end.

Definition dict_keys {V} (d : dict V) : list string := map fst d.

Definition RawConfig : Type := dict string.

(** [raw_config.get(key, default)]. *)
Definition raw_get (raw_config : RawConfig) (key default : string) : string :=
  match dict_get raw_config key with
  | Some text => text
  | None => default
  end.

(** [ConfigNamespace(dict)]: the instance dictionary is the mapping
    itself ([self.__dict__ = self]). *)
Definition ConfigNamespace : Type := dict value.

Definition mem (name : string) (names : list string) : bool :=
  existsb (String.eqb name) names.

(** Names that [dict], [object] and the class statement define on
    [ConfigNamespace] without being data descriptors (CPython 3.11;
    earlier releases define a subset). *)
Definition class_attributes : list string :=
  [ "clear"; "copy"; "fromkeys"; "get"; "items"; "keys"; "pop"; "popitem";
    "setdefault"; "update"; "values";
    "__class_getitem__"; "__contains__"; "__delattr__"; "__delitem__";
    "__dir__"; "__doc__"; "__eq__"; "__format__"; "__ge__"; "__getattr__";
    "__getattribute__"; "__getitem__"; "__getstate__"; "__gt__"; "__hash__";
    "__init__"; "__init_subclass__"; "__ior__"; "__iter__"; "__le__";
    "__len__"; "__lt__"; "__module__"; "__ne__"; "__new__"; "__or__";
    "__reduce__"; "__reduce_ex__"; "__repr__"; "__reversed__"; "__ror__";
    "__setattr__"; "__setitem__"; "__sizeof__"; "__str__";
    "__subclasshook__" ].

(** [ConfigNamespace.__getattr__]: the body is [...], so the call
    returns [None]. *)
Definition ConfigNamespace_getattr (self : ConfigNamespace) (name : string) : value :=
  VNone.

(** Attribute access [self.name]: data descriptors of the class, then
    the instance dictionary, then the other class attributes, and
    [__getattr__] when all of these fail. *)
Definition getattr (self : ConfigNamespace) (name : string) : value :=
  if String.eqb name "__class__" then
    VObject "<class 'baseplate.config.ConfigNamespace'>"
  else if String.eqb name "__dict__" then VNamespace self
  else if String.eqb name "__weakref__" then VNone
  else
    match dict_get self name with
    | Some v => v
    | None =>
        if mem name class_attributes then VAttribute name
        else ConfigNamespace_getattr self name
    end.

(** ** Parsers *)

(** [ConfigSpecItem = Union[Parser, Dict[str, Any], Callable[[str], T]]],
    and any other object a caller may put in a spec; [Parser] lists the
    classes of this module, the base class itself and subclasses defined
    elsewhere. *)
Inductive ConfigSpecItem : Type :=
| SpecObject (p : Parser)                         (* isinstance(spec, Parser) *)
| SpecDict (spec : list (string * ConfigSpecItem)) (* isinstance(spec, dict) *)
| SpecCallable (f : callable)                     (* callable(spec) *)
| SpecOther (repr : string)                       (* anything else *)
with Parser : Type :=
| BaseParser
| SpecParser (spec : list (string * ConfigSpecItem))
| CallableParser (callable_ : callable)
| DictOf (subparser : Parser)
| CustomParser (parse : string -> RawConfig -> M value).

Definition ConfigSpec : Type := list (string * ConfigSpecItem).

(** [Parser.from_spec]. *)
Definition from_spec (spec : ConfigSpecItem) : outcome Parser :=
  match spec with
  | SpecObject p => Returns p
  | SpecDict d => Returns (SpecParser d)
  | SpecCallable f => Returns (CallableParser f)
  | SpecOther repr => Raises (AssertionError ("invalid specification: " ++ repr))
  end.


Definition sub_key_path (key_path key : string) : string :=
  match key_path with
  | EmptyString => key
  | _ => key_path ++ "." ++ key
  end.

(** The loop of [SpecParser.parse]; [resolve spec sub_key_path] stands
    for [Parser.from_spec(spec).parse(sub_key_path, raw_config)]. *)
Definition SpecParser_items (resolve : ConfigSpecItem -> string -> M value)
    (key_path : string) : ConfigSpec -> ConfigNamespace -> M value :=
  fix items (spec : ConfigSpec) (parsed : ConfigNamespace) : M value :=
    match spec with
    | [] => ret (VNamespace parsed)
    | (key, item) :: rest =>
        if contains "." key then
          raise (AssertionError "dots are not allowed in keys")
        else
          v <- resolve item (sub_key_path key_path key) ;;
          items rest (dict_set parsed key v)
    end.

(** [CallableParser.parse]. *)
Definition CallableParser_parse (callable_ : callable)
    (key_path : string) (raw_config : RawConfig) : M value :=
  tell [RawGet key_path] ;;;
  let raw_value := raw_get raw_config key_path "" in
  except_Exception (callable_ raw_value) (ConfigurationError key_path).

Definition DictOf_root (key_path : string) : string :=
  match key_path with
  | EmptyString => EmptyString
  | _ => key_path ++ "."
  end.

(** The pattern handed to [re.compile]. *)
Definition DictOf_pattern (root : string) : string :=
  "^" ++ escape_dots root ++ "([^.]+)".

(** The loop of [DictOf.parse] over the keys of the raw configuration;
    [search key] is [m.group(1)] of [matcher.search(key)], [None] when
    there is no match, and [subparse full_path] stands for
    [self.subparser.parse(full_path, raw_config)]. *)
Definition DictOf_keys (search : string -> option string)
    (subparse : string -> M value) (root : string)
    : list string -> ConfigNamespace -> list string -> M value :=
  fix keys (raw_keys : list string) (values : ConfigNamespace)
      (seen_subkeys : list string) : M value :=
    match raw_keys with
    | [] => ret (VNamespace values)
    | key :: rest =>
        match search key with
        | None => keys rest values seen_subkeys
        | Some subkey =>
            if mem subkey seen_subkeys then keys rest values seen_subkeys
            else
              v <- subparse (root ++ subkey) ;;
              keys rest (dict_set values subkey v) (subkey :: seen_subkeys)
        end
    end.

Section Engine.

(** Python's [re] module, taken as given: [re_compile pattern] is the
    compiled matcher, mapping a key to group 1 of [matcher.search(key)]
    when there is a match, or the error [re.compile] raises. *)
Variable re_compile : string -> outcome (string -> option string).

Definition DictOf_parse (subparse : string -> RawConfig -> M value)
    (key_path : string) (raw_config : RawConfig) : M value :=
  let root := DictOf_root key_path in
  matcher <- lift (re_compile (DictOf_pattern root)) ;;
  tell [RawKeys] ;;;
  DictOf_keys matcher (fun full_path => subparse full_path raw_config) root
    (dict_keys raw_config) [] [].

(** [parser.parse(key_path, raw_config)], by the class of [parser];
    [resolve_parse] is [Parser.from_spec(spec).parse(...)]. *)
Fixpoint parse (parser : Parser) (key_path : string) (raw_config : RawConfig)
    {struct parser} : M value :=
  match parser with
  | BaseParser => raise NotImplementedError
  | SpecParser spec =>
      SpecParser_items (fun item path => resolve_parse item path raw_config)
        key_path spec []
  | CallableParser callable_ => CallableParser_parse callable_ key_path raw_config
  | DictOf subparser => DictOf_parse (parse subparser) key_path raw_config
  | CustomParser custom => custom key_path raw_config
  end
with resolve_parse (spec : ConfigSpecItem) (key_path : string)
    (raw_config : RawConfig) {struct spec} : M value :=
  match spec with
  | SpecObject p => parse p key_path raw_config
  | SpecDict d =>
      SpecParser_items (fun item path => resolve_parse item path raw_config)
        key_path d []
  | SpecCallable f => CallableParser_parse f key_path raw_config
  | SpecOther repr => raise (AssertionError ("invalid specification: " ++ repr))
  end.

(** [parse_config(config, spec)]. *)
Definition parse_config (config : RawConfig) (spec : ConfigSpecItem) : M value :=
  parser <- lift (from_spec spec) ;; parse parser EmptyString config.

End Engine.

(** ** Reference descriptions used by the statements *)

(** The subkeys a scan of [raw_keys] discovers, in first-seen order. *)
Fixpoint discover (search : string -> option string) (raw_keys seen : list string)
    : list string :=
  match raw_keys with
  | [] => []
  | key :: rest =>
      match search key with
      | None => discover search rest seen
      | Some subkey =>
          if mem subkey seen then discover search rest seen
          else subkey :: discover search rest (subkey :: seen)
      end
  end.

(** Resolve each subkey of a list once, in order, stopping at the first
    failure. *)
Fixpoint resolve_all (subparse : string -> M value) (root : string)
    (subkeys : list string) (values : ConfigNamespace) : M value :=
  match subkeys with
  | [] => ret (VNamespace values)
  | subkey :: rest =>
      v <- subparse (root ++ subkey) ;;
      resolve_all subparse root rest (dict_set values subkey v)
  end.


(** The candidate subkey in the specification's words: for a raw key
    beginning with the prefix, the run of characters up to the following
    ['.'] or end of string. *)
Definition spec_candidate (prefix key : string) : option string :=
  match strip_prefix prefix key with
  | Some rest => Some (segment rest)
  | None => None
  end.


Definition engine : Type := string -> outcome (string -> option string).

(** Names that attribute access finds on the class of a namespace. *)
Definition inherited (name : string) : bool :=
  mem name ("__class__" :: "__dict__" :: "__weakref__" :: class_attributes).

(** A token of [str.split()]: no whitespace inside. *)
Fixpoint no_space (text : string) : bool :=
  match text with
  | EmptyString => true
  | String.String a rest => negb (isspace a) && no_space rest
  end.

(** The units of [scale_by_unit] whose scale is a whole number of
    seconds. *)
Definition integer_scale (unit : string) : option Z :=
  if String.eqb unit "second" then Some 1
  else if String.eqb unit "minute" then Some 60
  else if String.eqb unit "hour" then Some 3600
  else if String.eqb unit "day" then Some 86400
  else None.

(** The input form of the duration coercer in the specification's
    words: ["<int> <unit>[s]"] with the unit among the five names. *)
Definition duration_form (text : string) : Prop :=
  exists count_text unit plural n,
    int count_text = Returns n /\
    In unit ["millisecond"; "second"; "minute"; "hour"; "day"] /\
    (plural = EmptyString \/ plural = "s") /\
    text = count_text ++ " " ++ unit ++ plural.

Fixpoint drop (n : nat) (text : string) : string :=
  match n, text with
  | O, _ => text
  | S k, EmptyString => EmptyString
  | S k, String.String _ rest => drop k rest
  end.

(** A run of whitespace, which [str.split()] skips. *)
Fixpoint all_space (text : string) : bool :=
  match text with
  | EmptyString => true
  | String.String a rest => isspace a && all_space rest
  end.

(** The unit names of the duration coercer. *)
Definition unit_names : list string :=
  ["millisecond"; "second"; "minute"; "hour"; "day"].

(** The texts ["<int> <unit>[s]"] that denote the count [n] of [unit]:
    an integer literal and the unit name with or without one ['s'], with
    any whitespace around the two and at least one whitespace character
    between them. *)
Inductive duration_text (n : Z) (unit : string) : string -> Prop :=
| duration_text_intro before count_text gap plural after :
    all_space before = true ->
    all_space gap = true -> gap <> EmptyString ->
    all_space after = true ->
    no_space count_text = true -> int count_text = Returns n ->
    plural = EmptyString \/ plural = "s" ->
    duration_text n unit (before ++ count_text ++ gap ++ unit ++ plural ++ after).

(** An engine that agrees with Python's [re] on the patterns built from
    plain prefixes: the compiled matcher finds the literal prefix
    followed by the longest non-empty run of characters other than
    ['.']. *)
Definition literal_engine (re : engine) : Prop :=
  forall root,
    plain root = true ->
    exists matcher,
      re (DictOf_pattern root) = Returns matcher /\
      forall key, matcher key = literal_search root key.

(** The raw source of the dynamic-discovery example. *)
Definition discovery_example : RawConfig :=
  [("a.x", "1"); ("a.y", "2"); ("b.x", "3")].

(** A coercer during whose call the user interrupts the program. *)
Definition interrupted : callable :=
  traced "interrupted"
    (fun _ => raise (BaseExceptionOnly "KeyboardInterrupt" EmptyString)).

(** A raw source with three keys under the path [svc]. *)
Definition service_example : RawConfig :=
  [("svc.a", "1"); ("svc.b", "x"); ("svc.c", "3")].


(** ** Further coercers of the module *)

(** [text.lower()] on ASCII text. *)
Definition lower_char (c : ascii) : ascii :=
  let n := code c in
  if (65 <=? n)%nat && (n <=? 90)%nat then ascii_of_nat (n + 32) else c.

Fixpoint lower (text : string) : string :=
  match text with
  | EmptyString => EmptyString
  | String.String a rest => String.String (lower_char a) (lower rest)
  end.

(** [repr(options.keys())] for option names that are identifiers, as
    keyword arguments are. *)
Definition keys_repr (names : list string) : string :=
  "dict_keys([" ++ String.concat ", " (map (fun name => "'" ++ name ++ "'") names)
  ++ "])".

(** [OneOf], built from its keyword arguments: the values may be of
    any one type. *)
Definition OneOf {T : Type} (options : dict T) : string -> M T :=
  fun text =>
    match dict_get options text with
    | Some v => ret v
    | None => raise (ValueError ("expected one of " ++ keys_repr (dict_keys options)))
    end.

Definition Boolean (text : string) : M bool :=
  let parser := OneOf [("true", true); ("false", false)] in
  parser (lower text).

(** [text.split(sep)] for a one-character separator: one piece more
    than there are separators. *)
Fixpoint split_on (sep : ascii) (text : string) : list string :=
  match text with
  | EmptyString => [EmptyString]
  | String.String a rest =>
      if Ascii.eqb a sep then EmptyString :: split_on sep rest
      else
        match split_on sep rest with
        | piece :: pieces => String.String a piece :: pieces
        | [] => [String.String a EmptyString]
        end
  end.

(** [text.strip()]. *)
Definition strip (text : string) : string := rstrip isspace (lstrip isspace text).

(** [[item_parser(item) for item in stripped if item]]. *)
Fixpoint TupleOf_items {T : Type} (item_parser : string -> M T)
    (stripped : list string) : M (list T) :=
  match stripped with
  | [] => ret []
  | item :: rest =>
      match item with
      | EmptyString => TupleOf_items item_parser rest
      | _ =>
          v <- item_parser item ;;
          vs <- TupleOf_items item_parser rest ;;
          ret (v :: vs)
      end
  end.

(** [TupleOf(item_parser)]: the result is a Python list of items. *)
Definition TupleOf {T : Type} (item_parser : string -> M T) : string -> M (list T) :=
  fun text =>
    match text with
    | EmptyString => raise (ValueError "no values provided")
    | _ =>
        let split := split_on "," text in
        let stripped := map strip split in
        TupleOf_items item_parser stripped
    end.

(** [InternetAddress.__str__]. *)
Definition InternetAddress_str (self : InternetAddress) : string :=
  host self ++ ":" ++ decimal (port self).

(** [EndpointConfiguration.__str__]: [str(self.address)]. *)
Definition EndpointConfiguration_str (self : EndpointConfiguration) : string :=
  match address self with
  | Internet a => InternetAddress_str a
  | Path p => p
  end.

(** ** The Vault client of [baseplate.context.hvac] *)

(** [text.endswith(c)] for a one-character [c]. *)
Fixpoint endswith (c : ascii) (text : string) : bool :=
  match text with
  | EmptyString => false
  | String.String a EmptyString => Ascii.eqb a c
  | String.String _ rest => endswith c rest
  end.

(** [text[:-1]]. *)
Fixpoint drop_last (text : string) : string :=
  match text with
  | EmptyString => EmptyString
  | String.String _ EmptyString => EmptyString
  | String.String a rest => String.String a (drop_last rest)
  end.

(** [HvacContextFactory]: the secrets store and the timeout it is built
    with (the HTTP session it also opens is left out). *)
Record HvacContextFactory (S : Type) : Type := mk_HvacContextFactory
  { secrets : S; timeout : value }.
Arguments mk_HvacContextFactory {S} secrets timeout.
Arguments secrets {S} _.
Arguments timeout {S} _.

(** [hvac_factory_from_config(app_config, secrets_store, prefix)]. *)
Definition hvac_factory_from_config {S : Type} (re : engine)
    (app_config : RawConfig) (secrets_store : S) (prefix : string)
    : M (HvacContextFactory S) :=
  if negb (endswith "." prefix) then raise (AssertionError EmptyString)
  else
    let parser :=
      SpecParser
        [("timeout",
          SpecCallable (Optional Timespan (VTimedelta (mk_timedelta 0 1 0))))] in
    options <- parse re parser (drop_last prefix) app_config ;;
    match options with
    | VNamespace ns => ret (mk_HvacContextFactory secrets_store (getattr ns "timeout"))
    | _ => raise (OtherException "AttributeError" "timeout")
    end.

(** [HvacClient.parse(key_path, raw_config)]. *)
Definition HvacClient_parse {S : Type} (re : engine) (secrets_store : S)
    (key_path : string) (raw_config : RawConfig) : M (HvacContextFactory S) :=
  hvac_factory_from_config re raw_config secrets_store (key_path ++ ".").

(** ** Parsers built from the classes of the module *)

(** Parsers and spec nodes that contain no parser class defined
    elsewhere. *)
Fixpoint standard (p : Parser) : bool :=
  match p with
  | BaseParser => true
  | SpecParser spec =>
      (fix all (l : ConfigSpec) : bool :=
         match l with
         | [] => true
         | (_, item) :: rest => standard_item item && all rest
         end) spec
  | CallableParser _ => true
  | DictOf subparser => standard subparser
  | CustomParser _ => false
  end
with standard_item (spec : ConfigSpecItem) : bool :=
  match spec with
  | SpecObject p => standard p
  | SpecDict d =>
      (fix all (l : ConfigSpec) : bool :=
         match l with
         | [] => true
         | (_, item) :: rest => standard_item item && all rest
         end) d
  | SpecCallable _ => true
  | SpecOther _ => true
  end.

(** The values in a normalised [timedelta]. *)
Definition normalised (d : timedelta) : Prop :=
  - 999999999 <= days d <= 999999999 /\
  0 <= seconds d < 86400 /\
  0 <= microseconds d < 1000000.

(** The accumulated value of a string of decimal digits. *)
Fixpoint uint_value (d : Decimal.uint) (acc : Z) : Z :=
  match d with
  | Decimal.Nil => acc
  | Decimal.D0 l => uint_value l (10 * acc)
  | Decimal.D1 l => uint_value l (10 * acc + 1)
  | Decimal.D2 l => uint_value l (10 * acc + 2)
  | Decimal.D3 l => uint_value l (10 * acc + 3)
  | Decimal.D4 l => uint_value l (10 * acc + 4)
  | Decimal.D5 l => uint_value l (10 * acc + 5)
  | Decimal.D6 l => uint_value l (10 * acc + 6)
  | Decimal.D7 l => uint_value l (10 * acc + 7)
  | Decimal.D8 l => uint_value l (10 * acc + 8)
  | Decimal.D9 l => uint_value l (10 * acc + 9)
  end.

(** Induction over parsers and the spec nodes they hold. *)
Section ParserInduction.

Variable P : Parser -> Prop.
Variable Q : ConfigSpecItem -> Prop.

Hypothesis P_base : P BaseParser.
Hypothesis P_spec :
  forall spec, Forall (fun entry => Q (snd entry)) spec -> P (SpecParser spec).
Hypothesis P_callable : forall f, P (CallableParser f).
Hypothesis P_dictof : forall subparser, P subparser -> P (DictOf subparser).
Hypothesis P_custom : forall custom, P (CustomParser custom).
Hypothesis Q_object : forall p, P p -> Q (SpecObject p).
Hypothesis Q_dict :
  forall d, Forall (fun entry => Q (snd entry)) d -> Q (SpecDict d).
Hypothesis Q_callable : forall f, Q (SpecCallable f).
Hypothesis Q_other : forall repr, Q (SpecOther repr).

Fixpoint Parser_induction (p : Parser) : P p :=
  match p with
  | BaseParser => P_base
  | SpecParser spec =>
      P_spec spec
        ((fix all (l : ConfigSpec) : Forall (fun entry => Q (snd entry)) l :=
            match l with
            | [] => Forall_nil _
            | (key, item) :: rest =>
                Forall_cons (key, item) (ConfigSpecItem_induction item) (all rest)
            end) spec)
  | CallableParser f => P_callable f
  | DictOf subparser => P_dictof subparser (Parser_induction subparser)
  | CustomParser custom => P_custom custom
  end
with ConfigSpecItem_induction (spec : ConfigSpecItem) : Q spec :=
  match spec with
  | SpecObject p => Q_object p (Parser_induction p)
  | SpecDict d =>
      Q_dict d
        ((fix all (l : ConfigSpec) : Forall (fun entry => Q (snd entry)) l :=
            match l with
            | [] => Forall_nil _
            | (key, item) :: rest =>
                Forall_cons (key, item) (ConfigSpecItem_induction item) (all rest)
            end) d)
  | SpecCallable f => Q_callable f
  | SpecOther repr => Q_other repr
  end.

End ParserInduction.

(** * Properties *)

(** ** Combinators *)

Lemma bind_ret_l {A B} (a : A) (k : A -> M B) : bind (ret a) k = k a.
Proof. unfold bind, ret. destruct (k a) as [log r]. reflexivity. Qed.

Lemma int_raises_ValueError (text : string) (e : exn) :
  int text = Raises e -> is_ValueError e = true.
Proof.
  unfold int. destruct (int_literal text); intros H; inversion H. reflexivity.
Qed.

(** C7: [Optional(P, default=D)] returns [D] on the empty text without
    invoking [P] (nothing is logged, whatever [P] would do), delegates
    to [P] on every non-empty text, and so never fails on its own: a
    failure of the combinator is the failure of [P] on the same text. *)
Theorem Optional_default_law (P : callable) (D : value) :
  Optional P D EmptyString = ([], Returns D) /\
  (forall a rest, Optional P D (String.String a rest) = P (String.String a rest)) /\
  (forall text log e,
      Optional P D text = (log, Raises e) -> P text = (log, Raises e)).
Proof.
  split; [reflexivity|]. split; [reflexivity|].
  intros text log e H. destruct text as [|a rest].
  - discriminate H.
  - exact H.
Qed.

Lemma Optional_default_law_witness :
  traced "P" Integer "x" =
  ([Invoked "P" "x"],
   Raises (ValueError "invalid literal for int() with base 10: 'x'")).
Proof.
  apply (proj2 (proj2 (Optional_default_law (traced "P" Integer) (VInt 9001)))).
  reflexivity.
Defined.

(** C2 (as amended): [Fallback(P, F)(x)] is [P(x)] when [P(x)] succeeds;
    when [P(x)] fails with a [ValueError], [F] is tried on the same text
    and the result, value or failure, is that of [F(x)]; a failure of
    [P] of any other class propagates and [F] is not tried. *)
Theorem Fallback_law (P F : callable) (x : string) :
  (forall log v, P x = (log, Returns v) -> Fallback P F x = (log, Returns v)) /\
  (forall log msg,
      P x = (log, Raises (ValueError msg)) ->
      Fallback P F x = ((log ++ fst (F x))%list, snd (F x))) /\
  (forall log e,
      P x = (log, Raises e) -> is_ValueError e = false ->
      Fallback P F x = (log, Raises e)).
Proof.
  unfold Fallback, except_ValueError. repeat split.
  - intros log v H. rewrite H. reflexivity.
  - intros log msg H. rewrite H. simpl. destruct (F x). reflexivity.
  - intros log e H He. rewrite H, He. reflexivity.
Qed.

Lemma Fallback_law_witness :
  Fallback Timespan Integer "30 seconds" =
    ([], Returns (VTimedelta (mk_timedelta 0 30 0))) /\
  Fallback Timespan Integer "30" = ([], Returns (VInt 30)) /\
  Fallback Timespan Integer "3000000000 days" =
    ([], Raises (OverflowError "Python int too large to convert to C int")).
Proof.
  split; [|split].
  - apply (proj1 (Fallback_law Timespan Integer "30 seconds")). reflexivity.
  - apply (proj1 (proj2 (Fallback_law Timespan Integer "30")) []
             "invalid specification").
    reflexivity.
  - apply (proj2 (proj2 (Fallback_law Timespan Integer "3000000000 days")));
      reflexivity.
Defined.

(** The fallback law fails for a failure that is no [ValueError]: the
    duration coercer overflows on ["1000000000 days"], the text coercer
    accepts that text, and the fallback of the two raises the overflow
    instead of returning what the text coercer returns. *)
Lemma Fallback_not_any_failure :
  Timespan "1000000000 days" =
    ([], Raises (OverflowError "days=1000000000; must have magnitude <= 999999999")) /\
  String "1000000000 days" = ([], Returns (VStr "1000000000 days")) /\
  Fallback Timespan String "1000000000 days" =
    ([], Raises (OverflowError "days=1000000000; must have magnitude <= 999999999")) /\
  Fallback Timespan String "1000000000 days" <> String "1000000000 days".
Proof.
  split; [vm_compute; reflexivity|]. split; [reflexivity|].
  split; [vm_compute; reflexivity|].
  vm_compute. discriminate.
Qed.

(** ** Leaf resolver *)

(** C4 (as amended): [CallableParser.parse] looks the key path up in
    the raw configuration and invokes the coercer with the text found
    there, or with the empty text when the key is absent; a value is
    returned as it is; a failure of the coercer that is an instance of
    [Exception] is replaced by a [ConfigurationError] carrying the key
    path and that failure, whose text is ["<key_path>: <cause>"]; a
    failure outside [Exception] ([SystemExit], [KeyboardInterrupt])
    propagates as it is. *)
Theorem CallableParser_contract (re : engine) (coercer : callable)
    (key_path : string) (raw_config : RawConfig) :
  let raw_value :=
    match dict_get raw_config key_path with
    | Some text => text
    | None => EmptyString
    end in
  (forall log v,
      coercer raw_value = (log, Returns v) ->
      parse re (CallableParser coercer) key_path raw_config =
      (RawGet key_path :: log, Returns v)) /\
  (forall log cause,
      coercer raw_value = (log, Raises cause) ->
      is_Exception cause = true ->
      parse re (CallableParser coercer) key_path raw_config =
      (RawGet key_path :: log, Raises (ConfigurationError key_path cause)) /\
      exn_str (ConfigurationError key_path cause) =
      key_path ++ ": " ++ exn_str cause) /\
  (forall log cause,
      coercer raw_value = (log, Raises cause) ->
      is_Exception cause = false ->
      parse re (CallableParser coercer) key_path raw_config =
      (RawGet key_path :: log, Raises cause)).
Proof.
  simpl. unfold CallableParser_parse, raw_get, except_Exception, bind, tell.
  split; [|split].
  - intros log v H. rewrite H. reflexivity.
  - intros log cause H Hcause. rewrite H, Hcause. split; reflexivity.
  - intros log cause H Hcause. rewrite H, Hcause. reflexivity.
Qed.

Lemma CallableParser_contract_witness :
  parse re_compile_literal (CallableParser (traced "coercer" Integer)) "a.b"
    [("a.b", "7")] =
    ([RawGet "a.b"; Invoked "coercer" "7"], Returns (VInt 7)) /\
  (parse re_compile_literal (CallableParser (traced "coercer" String)) "a.c"
     [("a.b", "7")] =
     ([RawGet "a.c"; Invoked "coercer" ""],
      Raises (ConfigurationError "a.c" (ValueError "no value specified"))) /\
   exn_str (ConfigurationError "a.c" (ValueError "no value specified")) =
     "a.c: no value specified") /\
  parse re_compile_literal (CallableParser interrupted) "a.b" [("a.b", "7")] =
    ([RawGet "a.b"; Invoked "interrupted" "7"],
     Raises (BaseExceptionOnly "KeyboardInterrupt" "")).
Proof.
  split; [|split].
  - apply (proj1 (CallableParser_contract re_compile_literal
                    (traced "coercer" Integer) "a.b" [("a.b", "7")])).
    reflexivity.
  - apply (proj1 (proj2 (CallableParser_contract re_compile_literal
                           (traced "coercer" String) "a.c" [("a.b", "7")])));
      reflexivity.
  - apply (proj2 (proj2 (CallableParser_contract re_compile_literal
                           interrupted "a.b" [("a.b", "7")])));
      reflexivity.
Defined.

(** Not every failure of a coercer is rewrapped: a coercer that is
    interrupted from the keyboard raises [KeyboardInterrupt], which
    [except Exception] does not catch, and the leaf parse lets it
    through without a key path. *)
Lemma CallableParser_lets_interrupt_through :
  interrupted "7" =
    ([Invoked "interrupted" "7"],
     Raises (BaseExceptionOnly "KeyboardInterrupt" "")) /\
  parse re_compile_literal (CallableParser interrupted) "a.b" [("a.b", "7")] =
    ([RawGet "a.b"; Invoked "interrupted" "7"],
     Raises (BaseExceptionOnly "KeyboardInterrupt" "")) /\
  parse re_compile_literal (CallableParser interrupted) "a.b" [("a.b", "7")] <>
    ([RawGet "a.b"; Invoked "interrupted" "7"],
     Raises (ConfigurationError "a.b"
               (BaseExceptionOnly "KeyboardInterrupt" ""))).
Proof.
  split; [reflexivity|]. split; [reflexivity|]. discriminate.
Qed.

(** ** Result namespace *)

(** C10 (as amended): on a namespace, attribute access under a name that
    is not a field of the namespace and is not an attribute the class
    inherits from [dict] and [object] returns [None]. *)
Theorem getattr_missing_is_None (self : ConfigNamespace) (name : string) :
  dict_get self name = None ->
  inherited name = false ->
  getattr self name = VNone.
Proof.
  unfold inherited, getattr. cbn [mem existsb].
  intros Hget Hinh.
  apply orb_false_elim in Hinh as [H1 Hinh].
  apply orb_false_elim in Hinh as [H2 Hinh].
  apply orb_false_elim in Hinh as [H3 Hinh].
  rewrite H1, H2, H3, Hget.
  fold (mem name class_attributes) in Hinh. rewrite Hinh. reflexivity.
Qed.

Lemma getattr_missing_is_None_witness :
  getattr [("timeout", VInt 3)] "timeuot" = VNone.
Proof.
  apply getattr_missing_is_None; reflexivity.
Defined.

(** The root namespace of an empty spec declares no field named [keys],
    yet attribute access under that name finds the method of [dict]
    rather than returning [None]. *)
Lemma getattr_finds_dict_method :
  parse_config re_compile_literal [] (SpecDict []) = ([], Returns (VNamespace [])) /\
  dict_get (V := value) [] "keys" = None /\
  getattr [] "keys" = VAttribute "keys" /\
  getattr [] "keys" <> VNone.
Proof.
  repeat split; try reflexivity. discriminate.
Qed.

(** ** Network endpoints *)

Lemma partition_found (sep : ascii) (before after : string) :
  contains sep before = false ->
  partition sep (before ++ String.String sep after) =
  (before, String.String sep EmptyString, after).
Proof.
  induction before as [|a before IH]; simpl; intros H.
  - rewrite Ascii.eqb_refl. reflexivity.
  - apply orb_false_elim in H as [Ha Hrest].
    rewrite Ha, (IH Hrest). reflexivity.
Qed.

Lemma partition_missing (sep : ascii) (text : string) :
  contains sep text = false ->
  partition sep text = (text, EmptyString, EmptyString).
Proof.
  induction text as [|a text IH]; simpl; intros H.
  - reflexivity.
  - apply orb_false_elim in H as [Ha Hrest].
    rewrite Ha, (IH Hrest). reflexivity.
Qed.

(** C9: the endpoint coercer fails on the empty text; returns the
    domain-socket endpoint of the whole text when the text contains
    ['/']; otherwise fails when the text has no [':'] (no port); and on
    [host:port], split at the first [':'], returns the internet endpoint
    of [host] and the integer [port], or fails with the [ValueError] of
    [int] when [port] is no integer. *)
Theorem Endpoint_cases (text : string) :
  (text = EmptyString ->
   Endpoint text = ([], Raises (ValueError "no endpoint specified"))) /\
  (contains "/" text = true ->
   Endpoint text =
   ([], Returns (VEndpoint (mk_EndpointConfiguration AF_UNIX (Path text))))) /\
  (text <> EmptyString -> contains "/" text = false ->
   contains ":" text = false ->
   Endpoint text = ([], Raises (ValueError "no port specified"))) /\
  (forall host port,
      text = host ++ ":" ++ port ->
      contains ":" host = false -> contains "/" text = false ->
      (forall n, int port = Returns n ->
         Endpoint text =
         ([], Returns (VEndpoint (mk_EndpointConfiguration AF_INET
                                    (Internet (mk_InternetAddress host n)))))) /\
      (forall e, int port = Raises e ->
         Endpoint text = ([], Raises e) /\ is_ValueError e = true)).
Proof.
  split; [|split; [|split]].
  - intros ->. reflexivity.
  - intros H. destruct text as [|a rest]; [discriminate H|].
    unfold Endpoint. rewrite H. reflexivity.
  - intros Hne Hslash Hcolon. destruct text as [|a rest]; [congruence|].
    unfold Endpoint. rewrite Hslash, (partition_missing _ _ Hcolon).
    reflexivity.
  - intros host port -> Hhost Hslash.
    assert (Hcons : exists a rest, host ++ ":" ++ port = String.String a rest).
    { destruct host; simpl; eauto. }
    destruct Hcons as (a & rest & Hcons).
    assert (Hend : Endpoint (host ++ ":" ++ port) =
                   (n <- lift (int port) ;;
                    ret (VEndpoint (mk_EndpointConfiguration AF_INET
                                      (Internet (mk_InternetAddress host n)))))).
    { unfold Endpoint. rewrite Hslash.
      change (host ++ ":" ++ port) with (host ++ String.String ":" port).
      rewrite (partition_found _ _ _ Hhost).
      change (host ++ String.String ":" port) with (host ++ ":" ++ port).
      rewrite Hcons. reflexivity. }
    split.
    + intros n Hn. rewrite Hend, Hn. reflexivity.
    + intros e He. rewrite Hend, He. split; [reflexivity|].
      exact (int_raises_ValueError _ _ He).
Qed.

Lemma Endpoint_cases_witness :
  Endpoint "" = ([], Raises (ValueError "no endpoint specified")) /\
  Endpoint "a/b.sock" =
    ([], Returns (VEndpoint (mk_EndpointConfiguration AF_UNIX (Path "a/b.sock")))) /\
  Endpoint "host" = ([], Raises (ValueError "no port specified")) /\
  Endpoint "host:80" =
    ([], Returns (VEndpoint (mk_EndpointConfiguration AF_INET
                               (Internet (mk_InternetAddress "host" 80))))) /\
  Endpoint "host:http" =
    ([], Raises (ValueError "invalid literal for int() with base 10: 'http'")).
Proof.
  split; [|split; [|split; [|split]]].
  - apply (proj1 (Endpoint_cases "")). reflexivity.
  - apply (proj1 (proj2 (Endpoint_cases "a/b.sock"))). reflexivity.
  - apply (proj1 (proj2 (proj2 (Endpoint_cases "host"))));
      [discriminate | reflexivity | reflexivity].
  - apply (proj1 (proj2 (proj2 (proj2 (Endpoint_cases "host:80")))
                    "host" "80" eq_refl eq_refl eq_refl)).
    reflexivity.
  - apply (proj2 (proj2 (proj2 (proj2 (Endpoint_cases "host:http")))
                    "host" "http" eq_refl eq_refl eq_refl)).
    reflexivity.
Defined.

(** ** Durations *)

Lemma append_nil_r (text : string) : text ++ EmptyString = text.
Proof. induction text as [|a text IH]; simpl; [|rewrite IH]; reflexivity. Qed.

Lemma append_assoc (a b c : string) : (a ++ b) ++ c = a ++ b ++ c.
Proof. induction a as [|x a IH]; simpl; [|rewrite IH]; reflexivity. Qed.

Lemma length_append (a b : string) :
  String.length (a ++ b) = (String.length a + String.length b)%nat.
Proof. induction a as [|x a IH]; simpl; [|rewrite IH]; reflexivity. Qed.

Lemma drop_append (a b : string) : drop (String.length a) (a ++ b) = b.
Proof. induction a as [|x a IH]; simpl; [destruct b|]; auto. Qed.

Lemma split_from_token (token current rest : string) :
  no_space token = true ->
  split_from current (token ++ rest) = split_from (current ++ token) rest.
Proof.
  revert current. induction token as [|a token IH]; simpl; intros current H.
  - rewrite append_nil_r. reflexivity.
  - apply andb_prop in H as [Ha Htoken].
    apply negb_true_iff in Ha. rewrite Ha, (IH _ Htoken), append_assoc.
    reflexivity.
Qed.

Lemma split_two (first second : string) :
  no_space first = true -> first <> EmptyString ->
  no_space second = true -> second <> EmptyString ->
  split (first ++ " " ++ second) = [first; second].
Proof.
  intros H1 N1 H2 N2. unfold split.
  rewrite (split_from_token first EmptyString _ H1). simpl.
  destruct first as [|a first]; [congruence|].
  rewrite <- (append_nil_r second) at 1.
  rewrite (split_from_token second EmptyString _ H2). simpl.
  destruct second; [congruence|reflexivity].
Qed.

Lemma rstrip_append (chars : ascii -> bool) (text tail : string) :
  rstrip chars tail = EmptyString ->
  rstrip chars (text ++ tail) = rstrip chars text.
Proof.
  intros H. induction text as [|a text IH]; simpl.
  - exact H.
  - rewrite IH. reflexivity.
Qed.

Lemma no_space_append (a b : string) :
  no_space a = true -> no_space b = true -> no_space (a ++ b) = true.
Proof.
  intros Ha Hb. induction a as [|x a IH]; simpl in *; [exact Hb|].
  apply andb_prop in Ha as [Hx Ha]. rewrite Hx, (IH Ha). reflexivity.
Qed.

Lemma integer_scale_unit (unit : string) (k : Z) :
  integer_scale unit = Some k ->
  scale_by_unit unit = Some (PyInt k) /\ rstrip (Ascii.eqb "s") unit = unit /\
  no_space unit = true /\ unit <> EmptyString /\ 0 < k.
Proof.
  unfold integer_scale.
  destruct (String.eqb_spec unit "second") as [->|_];
    [intros H; inversion H; repeat split; (discriminate || reflexivity)|].
  destruct (String.eqb_spec unit "minute") as [->|_];
    [intros H; inversion H; repeat split; (discriminate || reflexivity)|].
  destruct (String.eqb_spec unit "hour") as [->|_];
    [intros H; inversion H; repeat split; (discriminate || reflexivity)|].
  destruct (String.eqb_spec unit "day") as [->|_];
    [intros H; inversion H; repeat split; (discriminate || reflexivity)|].
  discriminate.
Qed.

Lemma microseconds_to_delta_seconds (s : Z) :
  - 999999999 <= s / 86400 <= 999999999 ->
  microseconds_to_delta (s * 1000000) =
  Returns (mk_timedelta (s / 86400) (s mod 86400) 0).
Proof.
  intros H. unfold microseconds_to_delta.
  rewrite Z.div_mul by lia. rewrite Z.mod_mul by lia.
  replace (s / 86400 <? -2147483648) with false by (symmetry; apply Z.ltb_ge; lia).
  replace (2147483647 <? s / 86400) with false by (symmetry; apply Z.ltb_ge; lia).
  replace (s / 86400 <? -999999999) with false by (symmetry; apply Z.ltb_ge; lia).
  replace (999999999 <? s / 86400) with false by (symmetry; apply Z.ltb_ge; lia).
  reflexivity.
Qed.

Lemma Timespan_tokens (text count_text unit : string) :
  split text = [count_text; unit] ->
  Timespan text =
  (count <- lift (int count_text) ;;
   match scale_by_unit (rstrip (Ascii.eqb "s") unit) with
   | None => raise (ValueError "unknown unit")
   | Some scale =>
       d <- lift (timedelta_seconds count scale) ;; ret (VTimedelta d)
   end).
Proof. intros H. unfold Timespan. rewrite H. reflexivity. Qed.

(** *** Binary64 arithmetic of the millisecond scale *)

(** [digits2_pos p] is the number of binary digits of [p]. *)
Lemma digits2_pos_bounds (p : positive) :
  2 ^ (Zpos (digits2_pos p) - 1) <= Zpos p < 2 ^ Zpos (digits2_pos p).
Proof.
  induction p as [p IH | p IH |]; cbn [digits2_pos].
  - rewrite Pos2Z.inj_succ.
    replace (Z.succ (Zpos (digits2_pos p)) - 1) with (Z.succ (Zpos (digits2_pos p) - 1)) by lia.
    rewrite !Z.pow_succ_r by lia. lia.
  - rewrite Pos2Z.inj_succ.
    replace (Z.succ (Zpos (digits2_pos p)) - 1) with (Z.succ (Zpos (digits2_pos p) - 1)) by lia.
    rewrite !Z.pow_succ_r by lia. lia.
  - simpl. lia.
Qed.

Lemma digits2_pos_unique (p : positive) (d : Z) :
  2 ^ (d - 1) <= Zpos p < 2 ^ d -> Zpos (digits2_pos p) = d.
Proof.
  intros [Hlo Hhi]. pose proof (digits2_pos_bounds p) as [Hlo' Hhi'].
  assert (0 < d).
  { destruct (Z.ltb_spec 0 d); [assumption|].
    destruct (Z.eq_dec d 0) as [->|]; [simpl in Hhi; lia|].
    rewrite Z.pow_neg_r in Hhi by lia. lia. }
  destruct (Z.lt_trichotomy (Zpos (digits2_pos p)) d) as [Hlt | [Heq | Hgt]];
    [|assumption|].
  - assert (2 ^ Zpos (digits2_pos p) <= 2 ^ (d - 1))
      by (apply Z.pow_le_mono_r; lia). lia.
  - assert (2 ^ d <= 2 ^ (Zpos (digits2_pos p) - 1))
      by (apply Z.pow_le_mono_r; lia). lia.
Qed.

Lemma iter_pos_nat {A} (f : A -> A) (p : positive) (x : A) :
  iter_pos f p x = Nat.iter (Pos.to_nat p) f x.
Proof.
  revert x. induction p as [p IH | p IH |]; intros x; cbn [iter_pos].
  - rewrite !IH, Pos2Nat.inj_xI.
    replace (S (2 * Pos.to_nat p))%nat with (Pos.to_nat p + Pos.to_nat p + 1)%nat
      by lia.
    rewrite !Nat.iter_add. reflexivity.
  - rewrite !IH, Pos2Nat.inj_xO.
    replace (2 * Pos.to_nat p)%nat with (Pos.to_nat p + Pos.to_nat p)%nat by lia.
    rewrite Nat.iter_add. reflexivity.
  - reflexivity.
Qed.

(** One step of the rounding shift: the last bit moves to the round bit
    and the round bit joins the sticky bit. *)
Lemma shr_1_spec (m : Z) (r s : bool) :
  0 <= m ->
  exists m' b,
    shr_1 (Build_shr_record m r s) = Build_shr_record m' b (r || s) /\
    m = 2 * m' + (if b then 1 else 0) /\ 0 <= m'.
Proof.
  intros Hm. destruct m as [|[p|p|]|p]; try lia; cbn [shr_1].
  - exists 0, false. repeat split; lia.
  - exists (Zpos p), true. repeat split; lia.
  - exists (Zpos p), false. repeat split; lia.
  - exists 0, true. repeat split; lia.
Qed.

(** After [j + 1] shifts the record holds the quotient by [2^(j+1)], the
    round bit is bit [j] and the sticky bit tells whether the [j] bits
    below it are all zero. *)
Lemma shr_iter_spec (m : Z) (j : nat) :
  0 <= m ->
  exists mj r s t,
    Nat.iter (S j) shr_1 (Build_shr_record m false false) =
      Build_shr_record mj r s /\
    0 <= mj /\
    m = mj * 2 ^ (Z.of_nat (S j)) + (if r then 2 ^ Z.of_nat j else 0) + t /\
    0 <= t < 2 ^ Z.of_nat j /\
    (s = false <-> t = 0).
Proof.
  intros Hm. induction j as [|j IH].
  - change (Nat.iter 1 shr_1 ?x) with (shr_1 x).
    destruct (shr_1_spec m false false Hm) as (m' & b & -> & Heq & Hm').
    exists m', b, false, 0. simpl. destruct b; repeat split; lia.
  - destruct IH as (mj & r & s & t & Hiter & Hmj & Heq & Ht & Hs).
    change (Nat.iter (S (S j)) shr_1 ?x) with (shr_1 (Nat.iter (S j) shr_1 x)).
    rewrite Hiter.
    destruct (shr_1_spec mj r s Hmj) as (m' & b & -> & Hm'eq & Hm').
    exists m', b, (r || s), ((if r then 2 ^ Z.of_nat j else 0) + t).
    split; [reflexivity|]. split; [assumption|].
    rewrite !Nat2Z.inj_succ, !Z.pow_succ_r in * by lia.
    assert (0 < 2 ^ Z.of_nat j) by (apply Z.pow_pos_nonneg; lia).
    split; [|split].
    + rewrite Heq, Hm'eq. destruct b, r; lia.
    + destruct r; lia.
    + destruct r, s; simpl; split; intros; try lia; try discriminate.
Qed.

(** Rounding to nearest even after a shift by [k] bits is within half a
    unit of the last place kept. *)
Lemma round_shift (p : Z) (k : positive) :
  0 < p ->
  let rs := iter_pos shr_1 k (Build_shr_record p false false) in
  let R := round_nearest_even (shr_m rs) (loc_of_shr_record rs) in
  0 <= R /\
  - 2 ^ (Zpos k - 1) <= R * 2 ^ Zpos k - p <= 2 ^ (Zpos k - 1).
Proof.
  intros Hp rs R. subst R rs. rewrite iter_pos_nat.
  destruct (Pos2Nat.is_succ k) as [j Hj]. rewrite Hj.
  destruct (shr_iter_spec p j ltac:(lia)) as (mj & r & s & t & -> & Hmj & Heq & Ht & Hs).
  assert (Hk : Zpos k = Z.of_nat (S j)) by lia.
  rewrite Hk, Nat2Z.inj_succ in *.
  replace (Z.succ (Z.of_nat j) - 1) with (Z.of_nat j) by lia.
  rewrite Z.pow_succ_r in * by lia.
  assert (0 < 2 ^ Z.of_nat j) by (apply Z.pow_pos_nonneg; lia).
  set (h := 2 ^ Z.of_nat j) in *.
  cbn [shr_m loc_of_shr_record].
  destruct r, s; cbn [round_nearest_even].
  - assert (t <> 0) by (intros ->; destruct Hs as [_ Hs]; discriminate (Hs eq_refl)).
    split; [lia|]. nia.
  - assert (t = 0) by (apply Hs; reflexivity). subst t.
    destruct (Z.even mj); split; try lia; nia.
  - split; [lia|]. nia.
  - assert (t = 0) by (apply Hs; reflexivity). subst t.
    split; [lia|]. nia.
Qed.

Lemma fexp_normal (z : Z) : -1021 <= z -> fexp 53 1024 z = z - 53.
Proof. intros H. unfold fexp, emin. lia. Qed.

(** A mantissa of exactly 53 bits is kept as it is. *)
Lemma binary_round_aux_exact (sx : bool) (p : positive) (e : Z) :
  Zpos (digits2_pos p) = 53 -> -1074 <= e <= 971 ->
  binary_round_aux 53 1024 sx (Zpos p) e loc_Exact = S754_finite sx p e.
Proof.
  intros Hd He. unfold binary_round_aux.
  assert (Hshr : shr_fexp 53 1024 (Zpos p) e loc_Exact =
                 (Build_shr_record (Zpos p) false false, e)).
  { unfold shr_fexp. cbn [Zdigits2 shr_record_of_loc].
    rewrite Hd, fexp_normal by lia.
    replace (53 + e - 53 - e) with 0 by lia. reflexivity. }
  rewrite Hshr. cbn [shr_m loc_of_shr_record round_nearest_even].
  rewrite Hshr. cbn [shr_m].
  replace (e <=? 1024 - 53) with true by (symmetry; apply Z.leb_le; lia).
  reflexivity.
Qed.

(** A mantissa of [53 + k] bits is rounded to 53 bits, with an error of
    at most [2^(k-1)] units of the exponent [e]; the exponent grows by
    [k], or by [k + 1] when the rounding carries. *)
Lemma binary_round_aux_round (sx : bool) (p k : positive) (e : Z) :
  Zpos (digits2_pos p) = 53 + Zpos k ->
  -1074 <= e + Zpos k -> e + Zpos k + 1 <= 971 ->
  exists m2 e2,
    binary_round_aux 53 1024 sx (Zpos p) e loc_Exact = S754_finite sx m2 e2 /\
    Zpos (digits2_pos m2) = 53 /\
    e + Zpos k <= e2 <= e + Zpos k + 1 /\
    - 2 ^ (Zpos k - 1) <= Zpos m2 * 2 ^ (e2 - e) - Zpos p <= 2 ^ (Zpos k - 1).
Proof.
  intros Hd Hlo Hhi. unfold binary_round_aux.
  assert (Hshr : shr_fexp 53 1024 (Zpos p) e loc_Exact =
                 (iter_pos shr_1 k (Build_shr_record (Zpos p) false false),
                  e + Zpos k)).
  { unfold shr_fexp. cbn [Zdigits2 shr_record_of_loc].
    rewrite Hd, fexp_normal by lia.
    replace (53 + Zpos k + e - 53 - e) with (Zpos k) by lia. reflexivity. }
  rewrite Hshr.
  destruct (round_shift (Zpos p) k ltac:(lia)) as (HR0 & HRerr).
  set (R := round_nearest_even _ _) in *.
  pose proof (digits2_pos_bounds p) as Hp. rewrite Hd in Hp.
  replace (53 + Zpos k - 1) with (52 + Zpos k) in Hp by lia.
  rewrite !Z.pow_add_r in Hp by lia.
  assert (Hk2 : 2 ^ Zpos k = 2 * 2 ^ (Zpos k - 1)).
  { rewrite <- Z.pow_succ_r by lia. f_equal. lia. }
  assert (Hh : 0 < 2 ^ (Zpos k - 1)) by (apply Z.pow_pos_nonneg; lia).
  set (h := 2 ^ (Zpos k - 1)) in *.
  assert (HR : 2 ^ 52 <= R <= 2 ^ 53).
  { rewrite Hk2 in *. split; nia. }
  destruct R as [|m|m] eqn:HRm; try lia.
  destruct (Z.eq_dec (Zpos m) (2 ^ 53)) as [Hmax | Hmax].
  - (* carry: one more shift *)
    assert (Hm : m = 9007199254740992%positive) by (apply Pos2Z.inj; exact Hmax).
    assert (Hshr2 : shr_fexp 53 1024 (Zpos m) (e + Zpos k) loc_Exact =
                    (Build_shr_record (2 ^ 52) false false, e + Zpos k + 1)).
    { unfold shr_fexp. cbn [Zdigits2 shr_record_of_loc]. subst m.
      change (Zpos (digits2_pos 9007199254740992)) with 54.
      rewrite fexp_normal by lia.
      replace (54 + (e + Zpos k) - 53 - (e + Zpos k)) with 1 by lia.
      reflexivity. }
    rewrite Hshr2. cbn [shr_m]. change (2 ^ 52) with (Zpos 4503599627370496).
    replace (e + Zpos k + 1 <=? 1024 - 53) with true
      by (symmetry; apply Z.leb_le; lia).
    exists 4503599627370496%positive, (e + Zpos k + 1).
    split; [reflexivity|]. split; [reflexivity|]. split; [lia|].
    replace (e + Zpos k + 1 - e) with (Z.succ (Zpos k)) by lia.
    rewrite Z.pow_succ_r by lia.
    rewrite Hmax in HRerr. change (2 ^ 53) with (2 * 4503599627370496) in HRerr.
    lia.
  - assert (Hdm : Zpos (digits2_pos m) = 53).
    { apply digits2_pos_unique. change (53 - 1) with 52. lia. }
    assert (Hshr2 : shr_fexp 53 1024 (Zpos m) (e + Zpos k) loc_Exact =
                    (Build_shr_record (Zpos m) false false, e + Zpos k)).
    { unfold shr_fexp. cbn [Zdigits2 shr_record_of_loc].
      rewrite Hdm, fexp_normal by lia.
      replace (53 + (e + Zpos k) - 53 - (e + Zpos k)) with 0 by lia.
      reflexivity. }
    rewrite Hshr2. cbn [shr_m].
    replace (e + Zpos k <=? 1024 - 53) with true
      by (symmetry; apply Z.leb_le; lia).
    exists m, (e + Zpos k).
    split; [reflexivity|]. split; [exact Hdm|]. split; [lia|].
    replace (e + Zpos k - e) with (Zpos k) by lia. exact HRerr.
Qed.

Lemma Pos_iter_xO (q j : positive) :
  Zpos (Pos.iter xO q j) = Zpos q * 2 ^ Zpos j.
Proof.
  induction j as [|j IH] using Pos.peano_ind.
  - simpl. lia.
  - rewrite Pos.iter_succ, Pos2Z.inj_succ, Z.pow_succ_r by lia.
    rewrite Pos2Z.inj_xO, IH. lia.
Qed.

(** An integer of at most 53 bits is converted exactly. *)
Lemma binary_normalize_exact (s : bool) (q : positive) (e : Z) :
  let dq := Zpos (digits2_pos q) in
  dq <= 53 -> -1074 <= e + dq - 53 <= 971 ->
  exists mq,
    binary_normalize 53 1024 (if s then Zneg q else Zpos q) e false =
      S754_finite s mq (e + dq - 53) /\
    Zpos (digits2_pos mq) = 53 /\
    Zpos mq = Zpos q * 2 ^ (53 - dq).
Proof.
  intros dq Hdq He.
  assert (Hround : exists mq,
             binary_round 53 1024 s q e = S754_finite s mq (e + dq - 53) /\
             Zpos (digits2_pos mq) = 53 /\ Zpos mq = Zpos q * 2 ^ (53 - dq)).
  { unfold binary_round, shl_align. fold dq.
    rewrite fexp_normal by lia.
    replace (dq + e - 53 - e) with (dq - 53) by lia.
    destruct (dq - 53) as [|j|j] eqn:Hj; try lia.
    - exists q. replace (e + dq - 53) with e by lia.
      split; [apply binary_round_aux_exact; subst dq; lia|].
      split; [subst dq; lia|]. replace (53 - dq) with 0 by lia. simpl. lia.
    - assert (Hval : Zpos (Pos.iter xO q j) = Zpos q * 2 ^ (53 - dq)).
      { rewrite Pos_iter_xO. f_equal. f_equal. lia. }
      assert (Hdig : Zpos (digits2_pos (Pos.iter xO q j)) = 53).
      { apply digits2_pos_unique. rewrite Hval.
        pose proof (digits2_pos_bounds q) as Hq. fold dq in Hq.
        replace (2 ^ (53 - 1)) with (2 ^ (dq - 1) * 2 ^ (53 - dq))
          by (rewrite <- Z.pow_add_r by lia; f_equal; lia).
        replace (2 ^ 53) with (2 ^ dq * 2 ^ (53 - dq))
          by (rewrite <- Z.pow_add_r by lia; f_equal; lia).
        assert (0 < 2 ^ (53 - dq)) by (apply Z.pow_pos_nonneg; lia).
        split; nia. }
      exists (Pos.iter xO q j). replace (dq + e - 53) with (e + dq - 53) by lia.
      split; [apply binary_round_aux_exact; lia|]. split; assumption. }
  destruct s; exact Hround.
Qed.

(** The product of two normal numbers: the exact product of the
    mantissas rounded to 53 bits, within a relative error of [2^-53] and
    within half a unit of the last place of the result. *)
Lemma SFmul_round (s1 s2 : bool) (m1 m2 : positive) (e1 e2 : Z) :
  Zpos (digits2_pos m1) = 53 -> Zpos (digits2_pos m2) = 53 ->
  -1126 <= e1 + e2 -> e1 + e2 <= 917 ->
  exists m e,
    SFmul 53 1024 (S754_finite s1 m1 e1) (S754_finite s2 m2 e2) =
      S754_finite (xorb s1 s2) m e /\
    Zpos (digits2_pos m) = 53 /\
    e1 + e2 + 52 <= e <= e1 + e2 + 54 /\
    - (Zpos m1 * Zpos m2) <=
      2 ^ 53 * (Zpos m * 2 ^ (e - (e1 + e2)) - Zpos m1 * Zpos m2) <=
      Zpos m1 * Zpos m2 /\
    - 2 ^ (e - (e1 + e2) - 1) <=
      Zpos m * 2 ^ (e - (e1 + e2)) - Zpos m1 * Zpos m2 <=
      2 ^ (e - (e1 + e2) - 1).
Proof.
  intros H1 H2 Hlo Hhi. cbn [SFmul].
  pose proof (digits2_pos_bounds m1) as B1. rewrite H1 in B1.
  pose proof (digits2_pos_bounds m2) as B2. rewrite H2 in B2.
  change (53 - 1) with 52 in *.
  assert (Hp : 2 ^ 104 <= Zpos (m1 * m2) < 2 ^ 106).
  { rewrite Pos2Z.inj_mul. change (2 ^ 104) with (2 ^ 52 * 2 ^ 52).
    change (2 ^ 106) with (2 ^ 53 * 2 ^ 53). split; nia. }
  assert (Hk : exists k : positive,
             (k = 52%positive \/ k = 53%positive) /\
             Zpos (digits2_pos (m1 * m2)) = 53 + Zpos k).
  { destruct (Z.lt_ge_cases (Zpos (m1 * m2)) (2 ^ 105)).
    - exists 52%positive. split; [left; reflexivity|].
      apply digits2_pos_unique. change (53 + 52 - 1) with 104.
      change (53 + 52) with 105. lia.
    - exists 53%positive. split; [right; reflexivity|].
      apply digits2_pos_unique. change (53 + 53 - 1) with 105.
      change (53 + 53) with 106. lia. }
  destruct Hk as (k & Hk & Hd).
  destruct (binary_round_aux_round (xorb s1 s2) (m1 * m2) k (e1 + e2) Hd)
    as (m & e & Heq & Hdm & He & Herr); try (destruct Hk; subst k; lia).
  exists m, e. split; [exact Heq|]. split; [exact Hdm|].
  split; [destruct Hk; subst k; lia|].
  rewrite <- Pos2Z.inj_mul.
  pose proof (digits2_pos_bounds (m1 * m2)) as Bp. rewrite Hd in Bp.
  assert (Hhalf : 2 ^ (Zpos k - 1) <= 2 ^ (e - (e1 + e2) - 1))
    by (apply Z.pow_le_mono_r; destruct Hk; subst k; lia).
  split; [|lia].
  destruct Hk; subst k.
  - change (2 ^ (52 - 1)) with (2 ^ 51) in Herr.
    change (2 ^ (53 + 52 - 1)) with (2 ^ 53 * 2 ^ 51) in Bp. lia.
  - change (2 ^ (53 - 1)) with (2 ^ 52) in Herr.
    change (2 ^ (53 + 53 - 1)) with (2 ^ 53 * 2 ^ 52) in Bp. lia.
Qed.

(** [round_half_even] finds the integer that is less than one half away. *)
Lemma round_half_even_near (N T k : Z) :
  0 < k -> - 2 ^ k < 2 * (N - T * 2 ^ k) < 2 ^ k -> round_half_even N k = T.
Proof.
  intros Hk Hnear. unfold round_half_even.
  assert (Hpos : 0 < 2 ^ k) by (apply Z.pow_pos_nonneg; lia).
  destruct (Z_lt_le_dec N (T * 2 ^ k)) as [Hlt|Hge].
  - assert (Hq : N / 2 ^ k = T - 1).
    { symmetry. apply Z.div_unique with (r := N - (T - 1) * 2 ^ k); lia. }
    assert (Hr : N mod 2 ^ k = N - (T - 1) * 2 ^ k).
    { symmetry. apply Z.mod_unique with (q := T - 1); lia. }
    rewrite Hq, Hr.
    destruct (Z.compare_spec (2 * (N - (T - 1) * 2 ^ k)) (2 ^ k)); lia.
  - assert (Hq : N / 2 ^ k = T).
    { symmetry. apply Z.div_unique with (r := N - T * 2 ^ k); lia. }
    assert (Hr : N mod 2 ^ k = N - T * 2 ^ k).
    { symmetry. apply Z.mod_unique with (q := T); lia. }
    rewrite Hq, Hr.
    destruct (Z.compare_spec (2 * (N - T * 2 ^ k)) (2 ^ k)); lia.
Qed.

(** The values of the floating-point numbers as rationals. *)
Module Binary64.
Import QArith Qpower Lqa.
Local Open Scope Q_scope.

Lemma pow2_pos (e : Z) : 0 < 2 ^ e.
Proof. apply Qpower_0_lt. reflexivity. Qed.

Lemma pow2_add (a b c : Z) : (a + b = c)%Z -> 2 ^ a * 2 ^ b == 2 ^ c.
Proof. intros <-. symmetry. apply Qpower_plus. discriminate. Qed.

Lemma pow2_Z (n : Z) : (0 <= n)%Z -> inject_Z (2 ^ n) == 2 ^ n.
Proof. intros Hn. rewrite Zpower_Qpower by exact Hn. reflexivity. Qed.

(** The error bounds of [SFmul_round], read on the rational values
    [m * 2^e] of the numbers. *)
Lemma dyadic_rel (m p j e e' : Z) :
  (0 <= j)%Z -> (e + j = e')%Z ->
  (- p <= 2 ^ 53 * (m * 2 ^ j - p) <= p)%Z ->
  - (inject_Z p * 2 ^ e) <=
    (9007199254740992 # 1) * (inject_Z m * 2 ^ e' - inject_Z p * 2 ^ e) /\
  (9007199254740992 # 1) * (inject_Z m * 2 ^ e' - inject_Z p * 2 ^ e) <=
    inject_Z p * 2 ^ e.
Proof.
  intros Hj He [Hlo Hhi].
  rewrite Zle_Qle in Hlo, Hhi.
  unfold Z.sub in Hlo, Hhi.
  rewrite inject_Z_mult, inject_Z_plus, inject_Z_mult, !inject_Z_opp in Hlo.
  rewrite inject_Z_mult, inject_Z_plus, inject_Z_mult, !inject_Z_opp in Hhi.
  change (inject_Z (2 ^ 53)) with (9007199254740992 # 1) in Hlo, Hhi.
  pose proof (pow2_Z j Hj) as HJ.
  pose proof (pow2_add e j e' He) as Hadd.
  pose proof (pow2_pos e) as HE.
  set (E := 2 ^ e) in *. set (E' := 2 ^ e') in *.
  set (J := 2 ^ j) in *. set (Jz := inject_Z (2 ^ j)%Z) in *.
  set (M := inject_Z m) in *. set (P := inject_Z p) in *.
  assert (HME : M * E' == (M * Jz) * E).
  { rewrite <- Hadd, HJ. ring. }
  rewrite HME.
  set (MJ := M * Jz) in *.
  assert (Hlo' : - P <= (9007199254740992 # 1) * (MJ - P)) by lra.
  assert (Hhi' : (9007199254740992 # 1) * (MJ - P) <= P) by lra.
  clear Hlo Hhi. rename Hlo' into Hlo. rename Hhi' into Hhi.
  split.
  - setoid_replace (- (P * E)) with ((- P) * E) by ring.
    setoid_replace ((9007199254740992 # 1) * (MJ * E - P * E))
      with (((9007199254740992 # 1) * (MJ - P)) * E) by ring.
    apply Qmult_le_compat_r; [exact Hlo|]. apply Qlt_le_weak, HE.
  - setoid_replace ((9007199254740992 # 1) * (MJ * E - P * E))
      with (((9007199254740992 # 1) * (MJ - P)) * E) by ring.
    apply Qmult_le_compat_r; [exact Hhi|]. apply Qlt_le_weak, HE.
Qed.


Lemma dyadic_abs (m p j e e' : Z) :
  (1 <= j)%Z -> (e + j = e')%Z ->
  (- 2 ^ (j - 1) <= m * 2 ^ j - p <= 2 ^ (j - 1))%Z ->
  - 2 ^ (e' - 1) <= inject_Z m * 2 ^ e' - inject_Z p * 2 ^ e /\
  inject_Z m * 2 ^ e' - inject_Z p * 2 ^ e <= 2 ^ (e' - 1).
Proof.
  intros Hj He [Hlo Hhi].
  rewrite Zle_Qle in Hlo, Hhi. unfold Z.sub in Hlo, Hhi.
  rewrite inject_Z_opp in Hlo.
  rewrite inject_Z_plus, inject_Z_mult, inject_Z_opp in Hlo, Hhi.
  fold (Z.sub j 1) in Hlo, Hhi.
  rewrite (pow2_Z (j - 1) ltac:(lia)), (pow2_Z j ltac:(lia)) in Hlo, Hhi.
  pose proof (pow2_add e j e' He) as Hadd.
  pose proof (pow2_add e (j - 1) (e' - 1) ltac:(lia)) as Hadd1.
  pose proof (pow2_pos e) as HE.
  rewrite <- Hadd, <- Hadd1.
  set (E := 2 ^ e) in *. set (J := 2 ^ j) in *. set (J1 := 2 ^ (j - 1)) in *.
  set (M := inject_Z m) in *. set (P := inject_Z p) in *.
  split.
  - setoid_replace (- (E * J1)) with ((- J1) * E) by ring.
    setoid_replace (M * (E * J) - P * E) with ((M * J + - P) * E) by ring.
    apply Qmult_le_compat_r; [exact Hlo|]. apply Qlt_le_weak, HE.
  - setoid_replace (E * J1) with (J1 * E) by ring.
    setoid_replace (M * (E * J) - P * E) with ((M * J + - P) * E) by ring.
    apply Qmult_le_compat_r; [exact Hhi|]. apply Qlt_le_weak, HE.
Qed.

Lemma pow2_le (a b : Z) : (a <= b)%Z -> 2 ^ a <= 2 ^ b.
Proof. intros Hab. apply Qpower_le_compat_l; [exact Hab|]. discriminate. Qed.

Lemma inject_Z_lt_1 (a b : Z) : inject_Z a < inject_Z b + 1 -> (a <= b)%Z.
Proof.
  intros H. apply Z.lt_succ_r. rewrite Zlt_Qlt.
  unfold Z.succ. rewrite inject_Z_plus. exact H.
Qed.

Lemma inject_Z_near (a b : Z) :
  inject_Z b - (49 # 100) <= inject_Z a <= inject_Z b + (49 # 100) -> a = b.
Proof.
  intros [Hlo Hhi]. apply Z.le_antisymm; apply inject_Z_lt_1; lra.
Qed.

Lemma float_1e6_eq : float_1e6 = S754_finite false 8589934592000000 (-33).
Proof. reflexivity. Qed.

(** [timedelta(seconds=f)] is [T] microseconds whenever the value of [f]
    in microseconds is within 0.49 of the integer [T]: the whole seconds
    are exact and the rounding of the fraction adds less than 0.01. *)
Lemma timedelta_of_float_near (s : bool) (mx : positive) (ex T : Z) :
  Zpos (digits2_pos mx) = 53%Z -> (-1000 <= ex < 0)%Z ->
  inject_Z T - (49 # 100) <= (1000000 # 1) * (inject_Z (Zpos mx) * 2 ^ ex) /\
  (1000000 # 1) * (inject_Z (Zpos mx) * 2 ^ ex) <= inject_Z T + (49 # 100) ->
  timedelta_of_float (S754_finite s mx ex) =
    microseconds_to_delta (if s then (- T)%Z else T).
Proof.
  intros Hdx Hex Hnear. unfold timedelta_of_float.
  destruct (Z.leb_spec 0 ex) as [Hbad|_]; [lia|].
  cbv beta zeta.
  pose proof (digits2_pos_bounds mx) as Bx. rewrite Hdx in Bx.
  assert (Hk : (0 < 2 ^ (- ex))%Z) by (apply Z.pow_pos_nonneg; lia).
  pose proof (Z.div_mod (Zpos mx) (2 ^ (- ex))%Z ltac:(lia)) as Hdm.
  pose proof (Z.mod_pos_bound (Zpos mx) (2 ^ (- ex))%Z Hk) as Hfm.
  assert (HI : (0 <= Zpos mx / 2 ^ (- ex))%Z) by (apply Z.div_pos; lia).
  set (I := (Zpos mx / 2 ^ (- ex))%Z) in *.
  set (fm := (Zpos mx mod 2 ^ (- ex))%Z) in *.
  (* the value of the float, split into whole seconds and fraction *)
  pose proof (pow2_Z (- ex) ltac:(lia)) as HK.
  pose proof (pow2_add (- ex) ex 0 ltac:(lia)) as HKE.
  change (2 ^ 0) with 1 in HKE.
  pose proof (pow2_pos ex) as HE.
  assert (HX : inject_Z (Zpos mx) * 2 ^ ex == inject_Z I + inject_Z fm * 2 ^ ex).
  { rewrite Hdm, inject_Z_plus, inject_Z_mult, HK.
    setoid_replace ((2 ^ (- ex) * inject_Z I + inject_Z fm) * 2 ^ ex)
      with (inject_Z I * (2 ^ (- ex) * 2 ^ ex) + inject_Z fm * 2 ^ ex) by ring.
    rewrite HKE. ring. }
  destruct Hnear as [Hlo Hhi]. rewrite HX in Hlo, Hhi.
  destruct fm as [|pf|pf] eqn:Hpf; [| |lia].
  - (* no fraction *)
    replace (binary_normalize 53 1024 (if s then (- 0)%Z else 0%Z) ex false)
      with (S754_zero false) by (destruct s; reflexivity).
    change (float_mul float_1e6 (S754_zero false)) with (S754_zero false).
    cbv iota. f_equal.
    assert (HT : (I * 1000000)%Z = T).
    { apply inject_Z_near. rewrite inject_Z_mult.
      change (inject_Z 0) with 0 in Hlo, Hhi.
      change (inject_Z 1000000) with (1000000 # 1). lra. }
    destruct s; lia.
  - (* a fraction [pf * 2^ex] *)
    pose proof (digits2_pos_bounds pf) as Bf.
    set (df := Zpos (digits2_pos pf)) in *.
    assert (Hdf53 : (df <= 53)%Z).
    { destruct (Z_le_gt_dec df 53) as [Hle|Hgt]; [exact Hle|exfalso].
      assert (2 ^ 53 <= 2 ^ (df - 1))%Z by (apply Z.pow_le_mono_r; lia). lia. }
    assert (Hdfk : (df <= - ex)%Z).
    { destruct (Z_le_gt_dec df (- ex)) as [Hle|Hgt]; [exact Hle|exfalso].
      assert (2 ^ (- ex) <= 2 ^ (df - 1))%Z by (apply Z.pow_le_mono_r; lia). lia. }
    destruct (binary_normalize_exact s pf ex) as (mf & Hnorm & Hdmf & Hmf);
      fold df; try lia.
    fold df in Hnorm, Hmf.
    replace (if s then (- Zpos pf)%Z else Zpos pf)
      with (if s then Zneg pf else Zpos pf) by (destruct s; reflexivity).
    rewrite Hnorm, float_1e6_eq. unfold float_mul.
    destruct (SFmul_round false s 8589934592000000 mf (-33) (ex + df - 53))
      as (mu & eu & Hmul & Hdmu & Heu & Herr & _);
      [reflexivity|exact Hdmf|lia|lia|].
    rewrite Hmul. cbn [xorb].
    destruct (Z.leb_spec 0 eu) as [Hbad|_]; [lia|].
    f_equal.
    replace ((if s then (- I)%Z else I) * 1000000 * 2 ^ (- eu) +
             (if s then (- Zpos mu)%Z else Zpos mu))%Z
      with (if s then (- (I * 1000000 * 2 ^ (- eu) + Zpos mu))%Z
            else (I * 1000000 * 2 ^ (- eu) + Zpos mu)%Z)
      by (destruct s; lia).
    (* the product in microseconds, against the exact fraction *)
    destruct (dyadic_rel (Zpos mu) (Zpos 8589934592000000 * Zpos mf)
                (eu - (-33 + (ex + df - 53))) (-33 + (ex + df - 53)) eu)
      as [Rlo Rhi]; [lia|lia|exact Herr|].
    assert (HP : inject_Z (Zpos 8589934592000000 * Zpos mf) *
                   2 ^ (-33 + (ex + df - 53)) ==
                 (1000000 # 1) * (inject_Z (Zpos pf) * 2 ^ ex)).
    { rewrite Hmf, !inject_Z_mult, (pow2_Z (53 - df) ltac:(lia)).
      assert (H33 : 2 ^ (ex - 33) == 2 ^ ex * (1 # 8589934592)).
      { rewrite <- (pow2_add ex (-33) (ex - 33) ltac:(lia)). reflexivity. }
      change (inject_Z 8589934592000000) with (8589934592000000 # 1).
      setoid_replace ((8589934592000000 # 1) * (inject_Z (Zpos pf) * 2 ^ (53 - df)) *
                        2 ^ (-33 + (ex + df - 53)))
        with ((8589934592000000 # 1) * inject_Z (Zpos pf) *
                (2 ^ (53 - df) * 2 ^ (-33 + (ex + df - 53)))) by ring.
      rewrite (pow2_add (53 - df) (-33 + (ex + df - 53)) (ex - 33) ltac:(lia)).
      rewrite H33. field. }
    rewrite HP in Rlo, Rhi.
    assert (HF : 0 <= inject_Z (Zpos pf) * 2 ^ ex /\ inject_Z (Zpos pf) * 2 ^ ex <= 1).
    { split.
      - apply Qmult_le_0_compat; [|apply Qlt_le_weak, HE].
        change 0 with (inject_Z 0). rewrite <- Zle_Qle. lia.
      - rewrite <- HKE. apply Qmult_le_compat_r; [|apply Qlt_le_weak, HE].
        rewrite <- HK, <- Zle_Qle. lia. }
    set (F := inject_Z (Zpos pf) * 2 ^ ex) in *.
    set (U := inject_Z (Zpos mu) * 2 ^ eu) in *.
    assert (HU : inject_Z T - (1 # 2) < (1000000 # 1) * inject_Z I + U /\
                 (1000000 # 1) * inject_Z I + U < inject_Z T + (1 # 2)) by lra.
    (* back to integers, at the scale of the rounding *)
    pose proof (pow2_Z (- eu) ltac:(lia)) as HL.
    pose proof (pow2_add (- eu) eu 0 ltac:(lia)) as HLE.
    change (2 ^ 0) with 1 in HLE.
    pose proof (pow2_pos (- eu)) as HLpos.
    assert (Hmu : inject_Z (Zpos mu) == U * 2 ^ (- eu)).
    { unfold U.
      setoid_replace (inject_Z (Zpos mu) * 2 ^ eu * 2 ^ (- eu))
        with (inject_Z (Zpos mu) * (2 ^ (- eu) * 2 ^ eu)) by ring.
      rewrite HLE. ring. }
    assert (Hpow : (0 < 2 ^ (- eu))%Z) by (apply Z.pow_pos_nonneg; lia).
    assert (Hz : (- 2 ^ (- eu) <
                  2 * ((I * 1000000 * 2 ^ (- eu) + Zpos mu) - T * 2 ^ (- eu)) <
                  2 ^ (- eu))%Z).
    { destruct HU as [HUlo HUhi].
      apply (Qmult_lt_compat_r _ _ _ HLpos) in HUlo, HUhi.
      split; rewrite Zlt_Qlt.
      - rewrite inject_Z_opp, inject_Z_mult. unfold Z.sub.
        rewrite inject_Z_plus, inject_Z_opp, inject_Z_plus, !inject_Z_mult, HL, Hmu.
        change (inject_Z 2) with (2 # 1).
        change (inject_Z 1000000) with (1000000 # 1). lra.
      - rewrite inject_Z_mult. unfold Z.sub.
        rewrite inject_Z_plus, inject_Z_opp, inject_Z_plus, !inject_Z_mult, HL, Hmu.
        change (inject_Z 2) with (2 # 1).
        change (inject_Z 1000000) with (1000000 # 1). lra. }
    apply round_half_even_near; [lia|].
    destruct s; lia.
Qed.


(** Below [2^32] seconds a unit of the last place is at most [2^-21]
    seconds, so that the product of a count by [0.001] is within 0.24
    microsecond of the rounded product, itself less than 0.09
    microsecond above the count of milliseconds. *)
Lemma millisecond_signed (s : bool) (q : positive) :
  (Zpos q <= 4294967295999)%Z ->
  timedelta_seconds (if s then Zneg q else Zpos q) (PyFloat float_0_001) =
    microseconds_to_delta ((if s then Zneg q else Zpos q) * 1000).
Proof.
  intros Hq. unfold timedelta_seconds, float_of_int.
  pose proof (digits2_pos_bounds q) as Bq.
  set (dq := Zpos (digits2_pos q)) in *.
  assert (Hdq : (dq <= 42)%Z).
  { destruct (Z_le_gt_dec dq 42) as [Hle|Hgt]; [exact Hle|exfalso].
    assert (2 ^ 42 <= 2 ^ (dq - 1))%Z by (apply Z.pow_le_mono_r; lia). lia. }
  assert (Hdq1 : (1 <= dq)%Z) by (unfold dq; lia).
  destruct (binary_normalize_exact s q 0) as (mc & Hnorm & Hdmc & Hmc);
    fold dq; try lia.
  fold dq in Hnorm, Hmc. rewrite Hnorm.
  unfold float_mul, float_0_001.
  destruct (SFmul_round s false mc 4611686018427388 (0 + dq - 53) (-62))
    as (mx & ex & Hmul & Hdmx & Hex & Herr & Habs);
    [exact Hdmc|reflexivity|lia|lia|].
  rewrite Hmul, xorb_false_r.
  rewrite (timedelta_of_float_near s mx ex (1000 * Zpos q)); [| exact Hdmx | lia |].
  - f_equal. destruct s; lia.
  - destruct (dyadic_rel (Zpos mx) (Zpos mc * Zpos 4611686018427388)
                (ex - (0 + dq - 53 + -62)) (0 + dq - 53 + -62) ex)
      as [Rlo Rhi]; [lia|lia|exact Herr|].
    destruct (dyadic_abs (Zpos mx) (Zpos mc * Zpos 4611686018427388)
                (ex - (0 + dq - 53 + -62)) (0 + dq - 53 + -62) ex)
      as [Alo Ahi]; [lia|lia|exact Habs|].
    assert (HP : inject_Z (Zpos mc * Zpos 4611686018427388) *
                   2 ^ (0 + dq - 53 + -62) ==
                 inject_Z (Zpos q) * (4611686018427388 # 4611686018427387904)).
    { rewrite Hmc, !inject_Z_mult, (pow2_Z (53 - dq) ltac:(lia)).
      change (inject_Z 4611686018427388) with (4611686018427388 # 1).
      setoid_replace (inject_Z (Zpos q) * 2 ^ (53 - dq) * (4611686018427388 # 1) *
                        2 ^ (0 + dq - 53 + -62))
        with (inject_Z (Zpos q) * (4611686018427388 # 1) *
                (2 ^ (53 - dq) * 2 ^ (0 + dq - 53 + -62))) by ring.
      rewrite (pow2_add (53 - dq) (0 + dq - 53 + -62) (-62) ltac:(lia)).
      change (2 ^ (-62)) with (1 # 4611686018427387904). ring. }
    rewrite HP in Rlo, Rhi, Alo, Ahi.
    rewrite inject_Z_mult. change (inject_Z 1000) with (1000 # 1).
    assert (Ha : 1 <= inject_Z (Zpos q) <= 4294967295999 # 1).
    { split.
      - change 1 with (inject_Z 1). rewrite <- Zle_Qle. lia.
      - change (4294967295999 # 1) with (inject_Z 4294967295999).
        rewrite <- Zle_Qle. exact Hq. }
    (* the product is below 2^32 seconds, so its last place is at most 2^-21 *)
    pose proof (digits2_pos_bounds mx) as Bx. rewrite Hdmx in Bx.
    pose proof (pow2_pos ex) as HE.
    assert (Hbig : (4503599627370496 # 1) * 2 ^ ex <= inject_Z (Zpos mx) * 2 ^ ex).
    { apply Qmult_le_compat_r; [|apply Qlt_le_weak, HE].
      change (4503599627370496 # 1) with (inject_Z (2 ^ (53 - 1))).
      rewrite <- Zle_Qle. lia. }
    assert (Hex21 : (ex <= -21)%Z).
    { destruct (Z_le_gt_dec ex (-21)) as [Hle|Hgt]; [exact Hle|exfalso].
      pose proof (pow2_le (-20) ex ltac:(lia)) as H20.
      change (2 ^ (-20)) with (1 # 1048576) in H20.
      set (a := inject_Z (Zpos q)) in *.
      set (X := inject_Z (Zpos mx) * 2 ^ ex) in *.
      set (E := 2 ^ ex) in *. lra. }
    pose proof (pow2_le (ex - 1) (-22) ltac:(lia)) as H22.
    change (2 ^ (-22)) with (1 # 4194304) in H22.
    set (a := inject_Z (Zpos q)) in *.
    set (X := inject_Z (Zpos mx) * 2 ^ ex) in *.
    set (E1 := 2 ^ (ex - 1)) in *.
    split; lra.
Qed.

(** A count of milliseconds of magnitude up to 4294967296005 gives
    exactly that many thousand microseconds. *)
Lemma millisecond_product_exact (n : Z) :
  (- 4294967296005 <= n <= 4294967296005)%Z ->
  timedelta_seconds n (PyFloat float_0_001) = microseconds_to_delta (n * 1000).
Proof.
  intros Hn.
  destruct (Z_le_gt_dec (Z.abs n) 4294967295999) as [Hsmall|Hedge].
  - destruct n as [|q|q].
    + reflexivity.
    + apply (millisecond_signed false q). lia.
    + apply (millisecond_signed true q). lia.
  - assert (Hcase : (n = 4294967296000 \/ n = 4294967296001 \/ n = 4294967296002 \/
                     n = 4294967296003 \/ n = 4294967296004 \/ n = 4294967296005 \/
                     n = -4294967296000 \/ n = -4294967296001 \/ n = -4294967296002 \/
                     n = -4294967296003 \/ n = -4294967296004 \/ n = -4294967296005)%Z)
      by lia.
    repeat (destruct Hcase as [->|Hcase]; [vm_compute; reflexivity|]).
    subst n. vm_compute. reflexivity.
Qed.

(** The next count is one microsecond off. *)
Lemma millisecond_product_inexact :
  timedelta_seconds 4294967296006 (PyFloat float_0_001) =
    Returns (mk_timedelta 49710 23296 6001) /\
  microseconds_to_delta (4294967296006 * 1000) =
    Returns (mk_timedelta 49710 23296 6000) /\
  timedelta_seconds (-4294967296006) (PyFloat float_0_001) =
    Returns (mk_timedelta (-49711) 63103 993999).
Proof. vm_compute. repeat split. Qed.

End Binary64.

Lemma microseconds_to_delta_total (us : Z) (d : timedelta) :
  microseconds_to_delta us = Returns d -> total_microseconds d = us.
Proof.
  unfold microseconds_to_delta.
  destruct (_ || _); [discriminate|]. destruct (_ || _); [discriminate|].
  intros H. inversion H. unfold total_microseconds. simpl.
  pose proof (Z.div_mod us 1000000). pose proof (Z.div_mod (us / 1000000) 86400).
  lia.
Qed.

Lemma microseconds_to_delta_returns (us : Z) :
  - 999999999 <= us / 1000000 / 86400 <= 999999999 ->
  microseconds_to_delta us =
  Returns (mk_timedelta (us / 1000000 / 86400) ((us / 1000000) mod 86400)
             (us mod 1000000)).
Proof.
  intros H. unfold microseconds_to_delta.
  replace (us / 1000000 / 86400 <? -2147483648) with false
    by (symmetry; apply Z.ltb_ge; lia).
  replace (2147483647 <? us / 1000000 / 86400) with false
    by (symmetry; apply Z.ltb_ge; lia).
  replace (us / 1000000 / 86400 <? -999999999) with false
    by (symmetry; apply Z.ltb_ge; lia).
  replace (999999999 <? us / 1000000 / 86400) with false
    by (symmetry; apply Z.ltb_ge; lia).
  reflexivity.
Qed.

Lemma microseconds_to_delta_overflow (us : Z) :
  ~ (- 999999999 <= us / 1000000 / 86400 <= 999999999) ->
  exists msg, microseconds_to_delta us = Raises (OverflowError msg).
Proof.
  intros H. unfold microseconds_to_delta.
  destruct (_ || _); [eexists; reflexivity|].
  destruct (Z.ltb_spec (us / 1000000 / 86400) (-999999999)) as [Hlo|Hlo];
    [eexists; reflexivity|].
  destruct (Z.ltb_spec 999999999 (us / 1000000 / 86400)) as [Hhi|Hhi];
    [eexists; reflexivity|].
  exfalso. apply H. lia.
Qed.

Lemma int_token (count_text : string) (n : Z) :
  int count_text = Returns n -> count_text <> EmptyString.
Proof. intros H ->. discriminate H. Qed.

Lemma split_from_space (ws rest : string) :
  all_space ws = true ->
  split_from EmptyString (ws ++ rest) = split_from EmptyString rest.
Proof.
  induction ws as [|a ws IH]; simpl; intros H; [reflexivity|].
  apply andb_prop in H as [Ha Hws]. rewrite Ha. exact (IH Hws).
Qed.

Lemma split_from_last (current ws : string) :
  current <> EmptyString -> all_space ws = true ->
  split_from current ws = [current].
Proof.
  intros Hc Hws. destruct current as [|c current]; [congruence|].
  destruct ws as [|a ws]; simpl; [reflexivity|].
  simpl in Hws. apply andb_prop in Hws as [Ha Hws]. rewrite Ha.
  rewrite <- (append_nil_r ws), (split_from_space ws EmptyString Hws).
  reflexivity.
Qed.

Lemma split_spaced (before first gap second after : string) :
  all_space before = true -> all_space gap = true -> gap <> EmptyString ->
  all_space after = true ->
  no_space first = true -> first <> EmptyString ->
  no_space second = true -> second <> EmptyString ->
  split (before ++ first ++ gap ++ second ++ after) = [first; second].
Proof.
  intros Hb Hg Ng Ha H1 N1 H2 N2. unfold split.
  rewrite (split_from_space before _ Hb).
  rewrite (split_from_token first EmptyString _ H1).
  change (EmptyString ++ first) with first.
  destruct gap as [|g gap]; [congruence|].
  simpl in Hg. apply andb_prop in Hg as [Hg0 Hg].
  destruct first as [|a first]; [congruence|].
  change (split_from (String.String a first)
            (String.String g gap ++ second ++ after))
    with (if isspace g
          then String.String a first ::
               split_from EmptyString (gap ++ second ++ after)
          else split_from (String.String a first ++ String.String g EmptyString)
                 (gap ++ second ++ after)).
  rewrite Hg0, (split_from_space gap _ Hg).
  rewrite (split_from_token second EmptyString _ H2).
  change (EmptyString ++ second) with second.
  rewrite (split_from_last second after N2 Ha). reflexivity.
Qed.

(** [unit.rstrip("s")] removes a run of ['s'] and nothing else. *)
Lemma rstrip_s (text : string) :
  exists j, text = rstrip (Ascii.eqb "s") text ++ repeat_char "s" j.
Proof.
  induction text as [|a text [j IH]].
  - exists O. reflexivity.
  - cbn [rstrip]. destruct (rstrip (Ascii.eqb "s") text) as [|b kept].
    + change (EmptyString ++ repeat_char "s" j) with (repeat_char "s" j) in IH.
      destruct (Ascii.eqb_spec "s" a) as [<-|Ha].
      * exists (S j). rewrite IH. reflexivity.
      * exists j. rewrite IH. reflexivity.
    + exists j. rewrite IH at 1. reflexivity.
Qed.

Lemma scale_by_unit_known (unit : string) (scale : number) :
  scale_by_unit unit = Some scale -> In unit unit_names.
Proof.
  unfold scale_by_unit, unit_names.
  destruct (String.eqb_spec unit "millisecond") as [->|_]; [simpl; tauto|].
  destruct (String.eqb_spec unit "second") as [->|_]; [simpl; tauto|].
  destruct (String.eqb_spec unit "minute") as [->|_]; [simpl; tauto|].
  destruct (String.eqb_spec unit "hour") as [->|_]; [simpl; tauto|].
  destruct (String.eqb_spec unit "day") as [->|_]; [simpl; tauto|].
  discriminate.
Qed.

(** On a text of the form, the coercer reads the count and looks the
    unit name up. *)
Lemma Timespan_duration_text (text unit : string) (n : Z) :
  duration_text n unit text ->
  no_space unit = true -> unit <> EmptyString ->
  rstrip (Ascii.eqb "s") unit = unit ->
  Timespan text =
  match scale_by_unit unit with
  | None => raise (ValueError "unknown unit")
  | Some scale => d <- lift (timedelta_seconds n scale) ;; ret (VTimedelta d)
  end.
Proof.
  intros [before count_text gap plural after Hb Hg Ng Ha Hc Hn Hplural] Hu Nu Hstrip.
  assert (Hsplit : split (before ++ count_text ++ gap ++ (unit ++ plural) ++ after) =
                   [count_text; unit ++ plural]).
  { apply split_spaced; try assumption.
    - exact (int_token _ _ Hn).
    - apply no_space_append; [exact Hu|]. destruct Hplural as [-> | ->]; reflexivity.
    - destruct unit; [congruence | discriminate]. }
  rewrite append_assoc in Hsplit.
  rewrite (Timespan_tokens _ _ _ Hsplit), Hn.
  rewrite rstrip_append, Hstrip by (destruct Hplural as [-> | ->]; reflexivity).
  change (lift (Returns n)) with (ret n). rewrite bind_ret_l. reflexivity.
Qed.

(** C8 (as amended): the duration coercer splits the text on whitespace
    and requires two tokens.  On ["<int> <unit>[s]"], with any
    whitespace around the integer literal and the unit and between
    them, and with one ['s'] or none after the unit: for second,
    minute, hour and day it returns the span of exactly [int * scale]
    seconds when that span is at most 999999999 days in magnitude, and
    fails with an [OverflowError] otherwise; for millisecond it returns
    the span of exactly [int] thousand microseconds for every count of
    magnitude up to 4294967296005; ["0 seconds"] is the zero-length
    span.  It fails with ["invalid specification"] when the token count
    is not two, with the [ValueError] of [int] on a non-integer count,
    and with ["unknown unit"] on a unit that is not one of the five
    names followed only by ['s']. *)
Theorem Timespan_cases :
  (forall text n unit k,
      duration_text n unit text -> integer_scale unit = Some k ->
      - 999999999 <= (n * k) / 86400 <= 999999999 ->
      exists d,
        Timespan text = ([], Returns (VTimedelta d)) /\
        total_microseconds d = n * k * 1000000) /\
  (forall text n unit k,
      duration_text n unit text -> integer_scale unit = Some k ->
      ~ (- 999999999 <= (n * k) / 86400 <= 999999999) ->
      exists msg, Timespan text = ([], Raises (OverflowError msg))) /\
  (forall text n,
      duration_text n "millisecond" text ->
      - 4294967296005 <= n <= 4294967296005 ->
      exists d,
        Timespan text = ([], Returns (VTimedelta d)) /\
        total_microseconds d = n * 1000) /\
  Timespan "0 seconds" = ([], Returns (VTimedelta (mk_timedelta 0 0 0))) /\
  (forall text,
      List.length (split text) <> 2%nat ->
      Timespan text = ([], Raises (ValueError "invalid specification"))) /\
  (forall text count_text unit e,
      split text = [count_text; unit] -> int count_text = Raises e ->
      Timespan text = ([], Raises e) /\ is_ValueError e = true) /\
  (forall text count_text unit n,
      split text = [count_text; unit] -> int count_text = Returns n ->
      (forall name j, In name unit_names -> unit <> name ++ repeat_char "s" j) ->
      Timespan text = ([], Raises (ValueError "unknown unit"))).
Proof.
  split; [|split; [|split; [|split; [|split; [|split]]]]].
  - intros text n unit k Htext Hk Hrange.
    destruct (integer_scale_unit _ _ Hk) as (Hscale & Hstrip & Hu & Nu & _).
    rewrite (Timespan_duration_text _ _ _ Htext Hu Nu Hstrip), Hscale.
    unfold timedelta_seconds. rewrite (microseconds_to_delta_seconds _ Hrange).
    eexists. split; [reflexivity|].
    unfold total_microseconds. simpl.
    pose proof (Z.div_mod (n * k) 86400). lia.
  - intros text n unit k Htext Hk Hrange.
    destruct (integer_scale_unit _ _ Hk) as (Hscale & Hstrip & Hu & Nu & _).
    rewrite (Timespan_duration_text _ _ _ Htext Hu Nu Hstrip), Hscale.
    unfold timedelta_seconds.
    destruct (microseconds_to_delta_overflow (n * k * 1000000)) as [msg Hmsg].
    { rewrite Z.div_mul by lia. exact Hrange. }
    exists msg. rewrite Hmsg. reflexivity.
  - intros text n Htext Hrange.
    rewrite (Timespan_duration_text _ _ _ Htext eq_refl ltac:(discriminate) eq_refl).
    change (scale_by_unit "millisecond") with (Some (PyFloat float_0_001)).
    cbv iota. rewrite (Binary64.millisecond_product_exact n Hrange).
    assert (Hdays : - 999999999 <= n * 1000 / 1000000 / 86400 <= 999999999).
    { rewrite Z.div_div by lia. split.
      - apply Z.div_le_lower_bound; lia.
      - apply Z.lt_succ_r. apply Z.div_lt_upper_bound; lia. }
    pose proof (microseconds_to_delta_returns _ Hdays) as Hd.
    eexists. rewrite Hd. split; [reflexivity|].
    exact (microseconds_to_delta_total _ _ Hd).
  - reflexivity.
  - intros text Hlen. unfold Timespan.
    destruct (split text) as [|a [|b [|c l]]]; try reflexivity.
    simpl in Hlen. congruence.
  - intros text count_text unit e Hsplit He.
    rewrite (Timespan_tokens _ _ _ Hsplit), He.
    split; [reflexivity | exact (int_raises_ValueError _ _ He)].
  - intros text count_text unit n Hsplit Hn Hunit.
    rewrite (Timespan_tokens _ _ _ Hsplit), Hn.
    change (lift (Returns n)) with (ret n). rewrite bind_ret_l.
    destruct (scale_by_unit (rstrip (Ascii.eqb "s") unit)) as [scale|] eqn:Hscale;
      [exfalso|reflexivity].
    destruct (rstrip_s unit) as [j Hj].
    exact (Hunit _ j (scale_by_unit_known _ _ Hscale) Hj).
Qed.

Lemma Timespan_cases_witness :
  (exists d, Timespan "  3   days " = ([], Returns (VTimedelta d)) /\
             total_microseconds d = 3 * 86400 * 1000000) /\
  (exists msg, Timespan "1000000000 days" = ([], Raises (OverflowError msg))) /\
  (exists d, Timespan "5000 milliseconds" = ([], Returns (VTimedelta d)) /\
             total_microseconds d = 5000 * 1000) /\
  Timespan "1 hour later" = ([], Raises (ValueError "invalid specification")) /\
  Timespan "1.5 hours" =
    ([], Raises (ValueError "invalid literal for int() with base 10: '1.5'")) /\
  Timespan "2 weeks" = ([], Raises (ValueError "unknown unit")).
Proof.
  destruct Timespan_cases as (Hint & Hover & Hmilli & _ & Hcount & Hbad & Hunit).
  split; [|split; [|split; [|split; [|split]]]].
  - apply (Hint "  3   days " 3 "day" 86400).
    + apply (duration_text_intro 3 "day" "  " "3" "   " "s" " ");
        (reflexivity || discriminate || (right; reflexivity)).
    + reflexivity.
    + vm_compute. split; discriminate.
  - apply (Hover "1000000000 days" 1000000000 "day" 86400).
    + apply (duration_text_intro 1000000000 "day" "" "1000000000" " " "s" "");
        (reflexivity || discriminate || (right; reflexivity)).
    + reflexivity.
    + vm_compute. intros [_ H]. apply H. reflexivity.
  - apply (Hmilli "5000 milliseconds" 5000).
    + apply (duration_text_intro 5000 "millisecond" "" "5000" " " "s" "");
        (reflexivity || discriminate || (right; reflexivity)).
    + lia.
  - apply (Hcount "1 hour later"). vm_compute. discriminate.
  - apply (Hbad "1.5 hours" "1.5" "hours"); reflexivity.
  - apply (Hunit "2 weeks" "2" "weeks" 2); [reflexivity|reflexivity|].
    intros name j Hname Heq. simpl in Hname.
    destruct Hname as [<- | [<- | [<- | [<- | [<- | []]]]]]; discriminate Heq.
Defined.

(** The accepted texts are not exactly those of the form
    ["<int> <unit>[s]"], and the span is not always the count times the
    scale: ["1 secondss"], which has not the form, is accepted;
    ["1000000000 days"], which has the form, is rejected because the
    span is out of range; and ["4294967296006 milliseconds"] is one
    microsecond longer than that many milliseconds. *)
Lemma Timespan_not_exactly_the_form :
  (Timespan "1 secondss" = ([], Returns (VTimedelta (mk_timedelta 0 1 0))) /\
   ~ duration_form "1 secondss") /\
  (duration_form "1000000000 days" /\
   Timespan "1000000000 days" =
   ([], Raises (OverflowError "days=1000000000; must have magnitude <= 999999999"))) /\
  (duration_form "4294967296006 milliseconds" /\
   Timespan "4294967296006 milliseconds" =
   ([], Returns (VTimedelta (mk_timedelta 49710 23296 6001))) /\
   total_microseconds (mk_timedelta 49710 23296 6001) = 4294967296006 * 1000 + 1).
Proof.
  split; [split|split; [split|split; [|split]]].
  - vm_compute. reflexivity.
  - intros (c & unit & plural & n & _ & Hunit & Hplural & Heq).
    simpl in Hunit.
    destruct Hplural as [-> | ->];
      destruct Hunit as [<- | [<- | [<- | [<- | [<- | []]]]]];
      match type of Heq with
      | _ = _ ++ ?suffix =>
          assert (Hlen := f_equal String.length Heq);
          assert (Hdrop := drop_append c suffix);
          rewrite <- Heq in Hdrop; rewrite length_append in Hlen;
          simpl in Hlen;
          match type of Hlen with
          | _ = (_ + ?k)%nat =>
              replace (String.length c) with (10 - k)%nat in Hdrop by lia
          end;
          vm_compute in Hdrop; discriminate Hdrop
      end.
  - exists "1000000000", "day", "s", 1000000000.
    repeat split; try (vm_compute; reflexivity).
    + simpl. tauto.
    + right. reflexivity.
  - vm_compute. reflexivity.
  - exists "4294967296006", "millisecond", "s", 4294967296006.
    repeat split; try (vm_compute; reflexivity).
    + simpl. tauto.
    + right. reflexivity.
  - vm_compute. reflexivity.
  - vm_compute. reflexivity.
Qed.

(** ** Structural resolver *)

Lemma dict_get_set_same {V} (d : dict V) (key : string) (v : V) :
  dict_get (dict_set d key v) key = Some v.
Proof.
  induction d as [|[k x] d IH]; simpl.
  - rewrite String.eqb_refl. reflexivity.
  - destruct (String.eqb k key) eqn:E; simpl; rewrite E; auto.
Qed.

Lemma dict_get_set_other {V} (d : dict V) (key other : string) (v : V) :
  key <> other -> dict_get (dict_set d key v) other = dict_get d other.
Proof.
  intros Hne. induction d as [|[k x] d IH]; simpl.
  - apply String.eqb_neq in Hne. rewrite Hne. reflexivity.
  - destruct (String.eqb_spec k key) as [->|Hk]; simpl.
    + apply String.eqb_neq in Hne. rewrite Hne. reflexivity.
    + rewrite IH. reflexivity.
Qed.

Lemma dict_get_set_present {V} (d : dict V) (key other : string) (v : V) :
  dict_get d other <> None -> dict_get (dict_set d key v) other <> None.
Proof.
  intros H. destruct (string_dec key other) as [->|Hne].
  - rewrite dict_get_set_same. discriminate.
  - rewrite (dict_get_set_other _ _ _ _ Hne). exact H.
Qed.

(** [Parser.from_spec(spec).parse(key_path, raw_config)] is what
    [resolve_parse] computes. *)
Lemma resolve_parse_from_spec (re : engine) (spec : ConfigSpecItem)
    (key_path : string) (raw_config : RawConfig) :
  resolve_parse re spec key_path raw_config =
  (parser <- lift (from_spec spec) ;; parse re parser key_path raw_config).
Proof.
  destruct spec as [p | d | f | repr].
  - change (lift (from_spec (SpecObject p))) with (ret p).
    rewrite bind_ret_l. reflexivity.
  - change (lift (from_spec (SpecDict d))) with (ret (SpecParser d)).
    rewrite bind_ret_l. reflexivity.
  - change (lift (from_spec (SpecCallable f))) with (ret (CallableParser f)).
    rewrite bind_ret_l. reflexivity.
  - reflexivity.
Qed.

Section Items.

Variable resolve : ConfigSpecItem -> string -> M value.
Variable key_path : string.

Lemma items_step (key : string) (item : ConfigSpecItem) (rest : ConfigSpec)
    (parsed : ConfigNamespace) :
  SpecParser_items resolve key_path ((key, item) :: rest) parsed =
  if contains "." key then raise (AssertionError "dots are not allowed in keys")
  else
    v <- resolve item (sub_key_path key_path key) ;;
    SpecParser_items resolve key_path rest (dict_set parsed key v).
Proof. reflexivity. Qed.

(** Once the fields of [before] are parsed, the loop goes on with the
    fields after them, from the namespace built so far. *)
Lemma items_app (before after : ConfigSpec) :
  forall parsed log ns,
    SpecParser_items resolve key_path before parsed = (log, Returns (VNamespace ns)) ->
    SpecParser_items resolve key_path (before ++ after)%list parsed =
    ((log ++ fst (SpecParser_items resolve key_path after ns))%list,
     snd (SpecParser_items resolve key_path after ns)).
Proof.
  induction before as [|[key item] before IH]; intros parsed log ns H.
  - simpl in H. inversion H. subst. simpl.
    destruct (SpecParser_items resolve key_path after ns). reflexivity.
  - rewrite <- app_comm_cons, items_step. rewrite items_step in H.
    destruct (contains "." key); [discriminate H|].
    unfold bind in *.
    destruct (resolve item (sub_key_path key_path key)) as [la [v|e]];
      [|discriminate H].
    destruct (SpecParser_items resolve key_path before (dict_set parsed key v))
      as [lb r] eqn:Hrest.
    inversion H. subst.
    rewrite (IH _ _ _ Hrest). rewrite app_assoc. reflexivity.
Qed.

(** A successful run returns a namespace that holds every field of the
    spec and everything that was in the namespace at the start. *)
Lemma items_fields (spec : ConfigSpec) :
  forall parsed log v,
    SpecParser_items resolve key_path spec parsed = (log, Returns v) ->
    exists ns,
      v = VNamespace ns /\
      (forall key, In key (map fst spec) -> dict_get ns key <> None) /\
      (forall key, dict_get parsed key <> None -> dict_get ns key <> None).
Proof.
  induction spec as [|[key item] spec IH]; intros parsed log v H.
  - simpl in H. inversion H. exists parsed.
    split; [reflexivity|]. split; [intros key []|auto].
  - rewrite items_step in H.
    destruct (contains "." key); [discriminate H|].
    unfold bind in H.
    destruct (resolve item (sub_key_path key_path key)) as [la [x|e]];
      [|discriminate H].
    destruct (SpecParser_items resolve key_path spec (dict_set parsed key x))
      as [lb r] eqn:Hrest.
    inversion H. subst.
    destruct (IH _ _ _ Hrest) as (ns & -> & Hspec & Hkept).
    exists ns. split; [reflexivity|]. split.
    + intros k [<- | Hk].
      * apply Hkept. rewrite dict_get_set_same. discriminate.
      * apply Hspec, Hk.
    + intros k Hk. apply Hkept, dict_get_set_present, Hk.
Qed.

End Items.

Lemma parse_SpecParser (re : engine) (spec : ConfigSpec) (key_path : string)
    (raw_config : RawConfig) :
  parse re (SpecParser spec) key_path raw_config =
  SpecParser_items (fun item path => resolve_parse re item path raw_config)
    key_path spec [].
Proof. reflexivity. Qed.

(** C5: a structural spec resolves its fields in declaration order,
    each under the child key path (the bare name at the root, otherwise
    parent, dot, name); the first field whose resolution fails ends the
    parse with that very failure, whatever fields are declared after it;
    and a parse that succeeds returns a namespace holding every declared
    field.  The nested example fails with key path ["nested.count"]. *)
Theorem SpecParser_fail_fast (re : engine) :
  (forall name, sub_key_path EmptyString name = name) /\
  (forall a parent name,
      sub_key_path (String.String a parent) name =
      String.String a parent ++ "." ++ name) /\
  (forall before key item after key_path raw_config log_before ns log v,
      parse re (SpecParser before) key_path raw_config =
        (log_before, Returns (VNamespace ns)) ->
      contains "." key = false ->
      resolve_parse re item (sub_key_path key_path key) raw_config =
        (log, Returns v) ->
      parse re (SpecParser (before ++ (key, item) :: after)%list) key_path raw_config =
      (tell (log_before ++ log)%list ;;;
       SpecParser_items (fun item path => resolve_parse re item path raw_config)
         key_path after (dict_set ns key v))) /\
  (forall before key item after key_path raw_config log_before ns log e,
      parse re (SpecParser before) key_path raw_config =
        (log_before, Returns (VNamespace ns)) ->
      contains "." key = false ->
      resolve_parse re item (sub_key_path key_path key) raw_config =
        (log, Raises e) ->
      parse re (SpecParser (before ++ (key, item) :: after)%list) key_path raw_config =
      ((log_before ++ log)%list, Raises e)) /\
  (forall spec key_path raw_config log v,
      parse re (SpecParser spec) key_path raw_config = (log, Returns v) ->
      exists ns,
        v = VNamespace ns /\
        forall key, In key (map fst spec) -> dict_get ns key <> None) /\
  parse_config re [("nested.count", "abc")]
    (SpecDict [("nested", SpecDict [("count", SpecCallable Integer)])]) =
  ([RawGet "nested.count"],
   Raises (ConfigurationError "nested.count"
             (ValueError "invalid literal for int() with base 10: 'abc'"))).
Proof.
  split; [reflexivity|]. split; [reflexivity|].
  split; [|split; [|split; [|reflexivity]]].
  - intros before key item after key_path raw_config log_before ns log v
      Hbefore Hkey Hitem.
    rewrite parse_SpecParser in *. rewrite (items_app _ _ _ _ _ _ _ Hbefore).
    rewrite items_step, Hkey, Hitem. unfold bind, tell.
    destruct (SpecParser_items _ key_path after (dict_set ns key v)).
    simpl. rewrite app_assoc. reflexivity.
  - intros before key item after key_path raw_config log_before ns log e
      Hbefore Hkey Hitem.
    rewrite parse_SpecParser in *. rewrite (items_app _ _ _ _ _ _ _ Hbefore).
    rewrite items_step, Hkey, Hitem. reflexivity.
  - intros spec key_path raw_config log v H. rewrite parse_SpecParser in H.
    destruct (items_fields _ _ _ _ _ _ H) as (ns & Hv & Hspec & _).
    exists ns. auto.
Qed.

Lemma SpecParser_fail_fast_witness :
  parse re_compile_literal
    (SpecParser ([("a", SpecCallable Integer)] ++
                 ("b", SpecCallable Integer) :: [("c", SpecOther "42")])%list)
    "svc" service_example =
    ([RawGet "svc.a"; RawGet "svc.b"],
     Raises (ConfigurationError "svc.b"
               (ValueError "invalid literal for int() with base 10: 'x'"))) /\
  parse re_compile_literal
    (SpecParser ([("a", SpecCallable Integer)] ++
                 ("c", SpecCallable Integer) :: [])%list)
    "svc" service_example =
    ([RawGet "svc.a"; RawGet "svc.c"],
     Returns (VNamespace [("a", VInt 1); ("c", VInt 3)])) /\
  (exists ns,
      VNamespace [("a", VInt 1); ("c", VInt 3)] = VNamespace ns /\
      forall key, In key ["a"; "c"] -> dict_get ns key <> None).
Proof.
  destruct (SpecParser_fail_fast re_compile_literal)
    as (_ & _ & Hnext & Hfail & Hfields & _).
  split; [|split].
  - apply (Hfail [("a", SpecCallable Integer)] "b" (SpecCallable Integer)
             [("c", SpecOther "42")] "svc" service_example
             [RawGet "svc.a"] [("a", VInt 1)] [RawGet "svc.b"]);
      reflexivity.
  - apply (Hnext [("a", SpecCallable Integer)] "c" (SpecCallable Integer)
             [] "svc" service_example
             [RawGet "svc.a"] [("a", VInt 1)] [RawGet "svc.c"] (VInt 3));
      reflexivity.
  - apply (Hfields [("a", SpecCallable Integer); ("c", SpecCallable Integer)]
             "svc" service_example [RawGet "svc.a"; RawGet "svc.c"]).
    reflexivity.
Defined.

(** ** Spec resolution *)




(** ** Dynamic resolver *)

Lemma bind_ext {A B} (m : M A) (k k' : A -> M B) :
  (forall a, k a = k' a) -> bind m k = bind m k'.
Proof. intros H. destruct m as [log [a|e]]; simpl; [rewrite H|]; reflexivity. Qed.

Lemma mem_In (name : string) (names : list string) :
  mem name names = true <-> In name names.
Proof.
  unfold mem. rewrite existsb_exists. split.
  - intros (x & Hin & Heq). apply String.eqb_eq in Heq. subst. exact Hin.
  - intros Hin. exists name. split; [exact Hin | apply String.eqb_refl].
Qed.

Lemma mem_not_In (name : string) (names : list string) :
  mem name names = false <-> ~ In name names.
Proof.
  rewrite <- mem_In. destruct (mem name names); split; intros H;
    congruence || (exfalso; apply H; reflexivity) || discriminate.
Qed.

(** The loop resolves the discovered subkeys, one call each. *)
Lemma DictOf_keys_discover (search : string -> option string)
    (subparse : string -> M value) (root : string) (raw_keys : list string) :
  forall values seen,
    DictOf_keys search subparse root raw_keys values seen =
    resolve_all subparse root (discover search raw_keys seen) values.
Proof.
  induction raw_keys as [|key rest IH]; intros values seen; simpl.
  - reflexivity.
  - destruct (search key) as [subkey|]; [|apply IH].
    destruct (mem subkey seen); [apply IH|].
    simpl. apply bind_ext. intros v. apply IH.
Qed.

Lemma discover_In (search : string -> option string) (raw_keys : list string) :
  forall seen subkey,
    In subkey (discover search raw_keys seen) <->
    (exists key, In key raw_keys /\ search key = Some subkey) /\
    ~ In subkey seen.
Proof.
  induction raw_keys as [|key rest IH]; intros seen subkey; simpl.
  - split; [intros [] | intros [(k & [] & _) _]].
  - destruct (search key) as [found|] eqn:Hsearch.
    + destruct (mem found seen) eqn:Hmem.
      * rewrite IH. apply mem_In in Hmem. split.
        -- intros [(k & Hk & Hs) Hseen]. split; [exists k; auto | exact Hseen].
        -- intros [(k & [<- | Hk] & Hs) Hseen].
           ++ rewrite Hsearch in Hs. inversion Hs. subst. contradiction.
           ++ split; [exists k; auto | exact Hseen].
      * apply mem_not_In in Hmem. simpl. rewrite IH. split.
        -- intros [<- | [(k & Hk & Hs) Hseen]].
           ++ split; [exists key; auto | exact Hmem].
           ++ split; [exists k; auto | intros H; apply Hseen; right; exact H].
        -- intros [(k & [<- | Hk] & Hs) Hseen].
           ++ rewrite Hsearch in Hs. inversion Hs. left. reflexivity.
           ++ destruct (string_dec found subkey) as [Heq | Hne]; [left; exact Heq|].
              right. split; [exists k; auto|].
              intros [H | H]; [contradiction | contradiction].
    + rewrite IH. split.
      * intros [(k & Hk & Hs) Hseen]. split; [exists k; auto | exact Hseen].
      * intros [(k & [<- | Hk] & Hs) Hseen].
        -- rewrite Hsearch in Hs. discriminate Hs.
        -- split; [exists k; auto | exact Hseen].
Qed.

Lemma discover_NoDup (search : string -> option string) (raw_keys : list string) :
  forall seen, NoDup (discover search raw_keys seen).
Proof.
  induction raw_keys as [|key rest IH]; intros seen; simpl.
  - constructor.
  - destruct (search key) as [found|]; [|apply IH].
    destruct (mem found seen); [apply IH|].
    constructor; [|apply IH].
    rewrite discover_In. intros [_ H]. apply H. left. reflexivity.
Qed.

Lemma parse_DictOf (re : engine) (subparser : Parser) (key_path : string)
    (raw_config : RawConfig) (matcher : string -> option string) :
  re (DictOf_pattern (DictOf_root key_path)) = Returns matcher ->
  parse re (DictOf subparser) key_path raw_config =
  (tell [RawKeys] ;;;
   resolve_all (fun path => parse re subparser path raw_config)
     (DictOf_root key_path)
     (discover matcher (dict_keys raw_config) []) []).
Proof.
  intros H. change (parse re (DictOf subparser) key_path raw_config)
    with (DictOf_parse re (parse re subparser) key_path raw_config).
  unfold DictOf_parse. rewrite H.
  change (lift (Returns matcher)) with (ret matcher). rewrite bind_ret_l.
  rewrite DictOf_keys_discover. reflexivity.
Qed.




Lemma strip_prefix_spec (prefix text rest : string) :
  strip_prefix prefix text = Some rest <-> text = prefix ++ rest.
Proof.
  revert text. induction prefix as [|a prefix IH]; intros text; simpl.
  - split; intros H; [inversion H | subst]; reflexivity.
  - destruct text as [|b text]; [split; discriminate|].
    destruct (Ascii.eqb_spec a b) as [->|Hne].
    + rewrite IH. split; intros H; [subst | inversion H]; reflexivity.
    + split; [discriminate | intros H; inversion H; congruence].
Qed.

Lemma segment_split (text : string) :
  exists rest,
    text = segment text ++ rest /\
    (rest = EmptyString \/ exists r, rest = String.String "." r).
Proof.
  induction text as [|a text (rest & Htext & Hrest)]; simpl.
  - exists EmptyString. auto.
  - destruct (Ascii.eqb_spec a ".") as [->|Hne].
    + exists (String.String "." text). split; [reflexivity | right; eauto].
    + exists rest. simpl. rewrite <- Htext. auto.
Qed.

Lemma segment_no_dot (text : string) : contains "." (segment text) = false.
Proof.
  induction text as [|a text IH]; simpl; [reflexivity|].
  destruct (Ascii.eqb a ".") eqn:E; simpl; [reflexivity|].
  rewrite E, IH. reflexivity.
Qed.

Lemma segment_unique (subkey rest : string) :
  contains "." subkey = false ->
  (rest = EmptyString \/ exists r, rest = String.String "." r) ->
  segment (subkey ++ rest) = subkey.
Proof.
  intros Hdot Hrest. induction subkey as [|a subkey IH]; simpl in *.
  - destruct Hrest as [-> | [r ->]]; reflexivity.
  - apply orb_false_elim in Hdot as [Ha Hdot]. rewrite Ha, (IH Hdot).
    reflexivity.
Qed.

(** A raw key yields a subkey exactly when it is the prefix, then the
    subkey, non-empty and without ['.'], then nothing or a ['.'] and
    the rest of the key. *)
Lemma literal_search_spec (root key subkey : string) :
  literal_search root key = Some subkey <->
  exists rest,
    key = root ++ subkey ++ rest /\ subkey <> EmptyString /\
    contains "." subkey = false /\
    (rest = EmptyString \/ exists r, rest = String.String "." r).
Proof.
  unfold literal_search. split.
  - destruct (strip_prefix root key) as [tail|] eqn:Hstrip; [|discriminate].
    apply strip_prefix_spec in Hstrip.
    destruct (segment_split tail) as (rest & Htail & Hrest).
    pose proof (segment_no_dot tail) as Hdot.
    destruct (segment tail) as [|a found] eqn:Hseg; [discriminate|].
    intros H. inversion H. subst subkey. exists rest.
    rewrite <- Htail. repeat split; auto. discriminate.
  - intros (rest & -> & Hne & Hdot & Hrest).
    assert (Hstrip : strip_prefix root (root ++ subkey ++ rest) =
                     Some (subkey ++ rest)) by (apply strip_prefix_spec; reflexivity).
    rewrite Hstrip, (segment_unique _ _ Hdot Hrest).
    destruct subkey; [congruence | reflexivity].
Qed.

Lemma plain_append (a b : string) : plain (a ++ b) = plain a && plain b.
Proof.
  induction a as [|x a IH]; simpl; [reflexivity|].
  rewrite IH, andb_assoc. reflexivity.
Qed.

Lemma plain_root (key_path : string) :
  plain key_path = true -> plain (DictOf_root key_path) = true.
Proof.
  intros H. destruct key_path as [|a key_path]; [reflexivity|].
  unfold DictOf_root. rewrite plain_append, H. reflexivity.
Qed.

Lemma literal_of_escaped (root : string) :
  plain root = true ->
  literal_of_pattern (escape_dots root ++ "([^.]+)") = Some root.
Proof.
  induction root as [|a root IH]; intros H; [reflexivity|].
  simpl in H. apply andb_prop in H as [Ha Hroot]. apply negb_true_iff in Ha.
  assert (Hmeta := Ha). unfold re_meta in Ha. simpl in Ha.
  repeat (apply orb_false_elim in Ha as [? Ha]).
  simpl escape_dots. destruct (Ascii.eqb_spec a ".") as [->|Hdot].
  - simpl. rewrite (IH Hroot). reflexivity.
  - apply Ascii.eqb_neq in Hdot.
    change (literal_of_pattern (String.String a (escape_dots root) ++ "([^.]+)"))
      with (if String.eqb (String.String a (escape_dots root ++ "([^.]+)")) "([^.]+)"
            then Some EmptyString
            else if Ascii.eqb a "\" then
                   match escape_dots root ++ "([^.]+)" with
                   | String.String b rest' =>
                       if Ascii.eqb b "."
                       then option_map (String.String ".") (literal_of_pattern rest')
                       else None
                   | EmptyString => None
                   end
                 else if re_meta a || Ascii.eqb a "." then None
                 else option_map (String.String a)
                        (literal_of_pattern (escape_dots root ++ "([^.]+)"))).
    simpl String.eqb.
    repeat match goal with
           | E : Ascii.eqb a _ = false |- _ => rewrite E; clear E
           end.
    rewrite Hmeta, (IH Hroot). reflexivity.
Qed.

Lemma re_compile_literal_engine : literal_engine re_compile_literal.
Proof.
  intros root Hroot. exists (literal_search root). split; [|reflexivity].
  unfold DictOf_pattern. simpl. rewrite (literal_of_escaped _ Hroot).
  reflexivity.
Qed.

(** C3 (as amended): for a key path without regular-expression
    metacharacters, the dynamic resolver works under the prefix
    [key_path + "."] (empty at the root) and discovers a subkey exactly
    from the raw keys that begin with the prefix followed by at least
    one character other than ['.'], the subkey being that run of
    characters up to the next ['.'] or the end of the key; other keys
    contribute nothing.  [DictOf(Integer)] at path ["a"] over
    [a.x=1, a.y=2, b.x=3] yields [{x: 1, y: 2}], and when no raw key
    begins with the prefix the result is the empty namespace. *)
Theorem DictOf_discovery (re : engine) (subparser : Parser)
    (key_path : string) (raw_config : RawConfig) :
  literal_engine re ->
  plain key_path = true ->
  let root := DictOf_root key_path in
  (root = match key_path with
          | EmptyString => EmptyString
          | _ => key_path ++ "."
          end) /\
  (exists subkeys,
      parse re (DictOf subparser) key_path raw_config =
        (tell [RawKeys] ;;;
         resolve_all (fun path => parse re subparser path raw_config)
           root subkeys []) /\
      forall subkey,
        In subkey subkeys <->
        exists key rest,
          In key (dict_keys raw_config) /\
          key = root ++ subkey ++ rest /\ subkey <> EmptyString /\
          contains "." subkey = false /\
          (rest = EmptyString \/ exists r, rest = String.String "." r)) /\
  ((forall key, In key (dict_keys raw_config) -> strip_prefix root key = None) ->
   parse re (DictOf subparser) key_path raw_config =
   ([RawKeys], Returns (VNamespace []))) /\
  parse re (DictOf (CallableParser Integer)) "a" discovery_example =
  ([RawKeys; RawGet "a.x"; RawGet "a.y"],
   Returns (VNamespace [("x", VInt 1); ("y", VInt 2)])).
Proof.
  intros Hre Hplain root.
  destruct (Hre root (plain_root _ Hplain)) as (matcher & Hcompile & Hmatch).
  split; [reflexivity|]. split; [|split].
  - exists (discover matcher (dict_keys raw_config) []).
    split; [apply parse_DictOf, Hcompile|].
    intros subkey. rewrite discover_In. split.
    + intros [(key & Hkey & Hs) _]. rewrite Hmatch in Hs.
      apply literal_search_spec in Hs as (rest & Hs).
      exists key, rest. tauto.
    + intros (key & rest & Hkey & Hs). split; [|intros []].
      exists key. split; [exact Hkey|]. rewrite Hmatch.
      apply literal_search_spec. exists rest. exact Hs.
  - intros Hnone. rewrite (parse_DictOf _ _ _ _ _ Hcompile).
    assert (Hempty : forall seen,
               discover matcher (dict_keys raw_config) seen = []).
    { induction (dict_keys raw_config) as [|key keys IH]; intros seen;
        [reflexivity|].
      simpl. rewrite Hmatch. unfold literal_search.
      rewrite (Hnone key (or_introl eq_refl)).
      apply IH. intros k Hk. apply Hnone. right. exact Hk. }
    rewrite Hempty. reflexivity.
  - destruct (Hre "a." eq_refl) as (m & Hm & Heq).
    rewrite (parse_DictOf re _ "a" discovery_example m Hm).
    unfold discovery_example. simpl dict_keys. simpl discover.
    rewrite !Heq. reflexivity.
Qed.

Lemma DictOf_discovery_witness :
  (exists subkeys,
      parse re_compile_literal (DictOf (CallableParser Integer)) "a"
        discovery_example =
        (tell [RawKeys] ;;;
         resolve_all
           (fun path => parse re_compile_literal (CallableParser Integer) path
                          discovery_example)
           "a." subkeys []) /\
      forall subkey,
        In subkey subkeys <->
        exists key rest,
          In key ["a.x"; "a.y"; "b.x"] /\
          key = "a." ++ subkey ++ rest /\ subkey <> EmptyString /\
          contains "." subkey = false /\
          (rest = EmptyString \/ exists r, rest = String.String "." r)) /\
  parse re_compile_literal (DictOf (CallableParser Integer)) "a"
    discovery_example =
  ([RawKeys; RawGet "a.x"; RawGet "a.y"],
   Returns (VNamespace [("x", VInt 1); ("y", VInt 2)])).
Proof.
  destruct (DictOf_discovery re_compile_literal (CallableParser Integer) "a"
              discovery_example re_compile_literal_engine eq_refl)
    as (_ & Hsubkeys & _ & Hexample).
  split; [exact Hsubkeys | exact Hexample].
Defined.

(** A raw key that begins with the prefix but goes on with ['.'] is not
    a source of a subkey: under path ["a"], the key ["a..x"] begins with
    ["a."] and its next segment is empty; the resolver returns the empty
    namespace, where resolving the candidate of the specification's
    words would look up ["a."] and fail. *)
Lemma DictOf_skips_empty_segment :
  strip_prefix "a." "a..x" = Some ".x" /\
  spec_candidate "a." "a..x" = Some EmptyString /\
  parse re_compile_literal (DictOf (CallableParser Integer)) "a"
    [("a..x", "1")] =
    ([RawKeys], Returns (VNamespace [])) /\
  (tell [RawKeys] ;;;
   DictOf_keys (spec_candidate "a.")
     (fun path => parse re_compile_literal (CallableParser Integer) path
                    [("a..x", "1")])
     "a." ["a..x"] [] []) =
    ([RawKeys; RawGet "a."],
     Raises (ConfigurationError "a."
               (ValueError "invalid literal for int() with base 10: ''"))).
Proof.
  split; [reflexivity|]. split; [reflexivity|]. split; reflexivity.
Qed.

(** * Further properties of the module *)

(** ** Combinators and coercers *)

(** Chained fallbacks can be grouped either way: trying [P], then [Q],
    then [R] gives the same value or failure, and the same calls, as
    trying [P] and then the fallback of [Q] and [R]. *)
Theorem Fallback_assoc (P Q R : callable) (x : string) :
  Fallback (Fallback P Q) R x = Fallback P (Fallback Q R) x.
Proof.
  unfold Fallback, except_ValueError.
  destruct (P x) as [lp [v|e]]; [reflexivity|].
  destruct (is_ValueError e) eqn:He; [|rewrite He; reflexivity].
  destruct (Q x) as [lq [v|e']]; [reflexivity|].
  destruct (is_ValueError e'); [|reflexivity].
  destruct (R x) as [lr r]. rewrite app_assoc. reflexivity.
Qed.

(** The unit of a duration may be written in the singular or with a
    final ['s']: both texts give the same result. *)
Theorem Timespan_plural (count_text unit : string) :
  no_space count_text = true -> count_text <> EmptyString ->
  no_space unit = true -> unit <> EmptyString ->
  Timespan (count_text ++ " " ++ unit ++ "s") =
  Timespan (count_text ++ " " ++ unit).
Proof.
  intros Hc Nc Hu Nu.
  assert (Hsplit : split (count_text ++ " " ++ unit ++ "s") =
                   [count_text; unit ++ "s"]).
  { apply split_two; auto.
    - apply no_space_append; [exact Hu | reflexivity].
    - destruct unit; discriminate. }
  rewrite (Timespan_tokens _ _ _ Hsplit).
  rewrite (Timespan_tokens _ _ _ (split_two _ _ Hc Nc Hu Nu)).
  rewrite (rstrip_append (Ascii.eqb "s") unit "s" eq_refl). reflexivity.
Qed.

Lemma Timespan_plural_witness :
  Timespan ("3" ++ " " ++ "hour" ++ "s") = Timespan ("3" ++ " " ++ "hour").
Proof.
  apply Timespan_plural; (reflexivity || discriminate).
Defined.

Lemma microseconds_to_delta_normalised (us : Z) (d : timedelta) :
  microseconds_to_delta us = Returns d -> normalised d.
Proof.
  unfold microseconds_to_delta.
  destruct (_ || _); [discriminate|].
  destruct (_ || _) eqn:Hrange; [discriminate|].
  intros H. inversion H. unfold normalised. simpl.
  apply orb_false_elim in Hrange as [Hlo Hhi].
  apply Z.ltb_ge in Hlo, Hhi.
  pose proof (Z.mod_pos_bound (us / 1000000) 86400).
  pose proof (Z.mod_pos_bound us 1000000). lia.
Qed.

Lemma timedelta_of_float_normalised (f : spec_float) (d : timedelta) :
  timedelta_of_float f = Returns d -> normalised d.
Proof.
  unfold timedelta_of_float.
  destruct f as [s | s | | s m e]; try discriminate.
  - apply microseconds_to_delta_normalised.
  - destruct (0 <=? e); [apply microseconds_to_delta_normalised|].
    destruct (float_mul _ _) as [s' | s' | | s' m' e'];
      try apply microseconds_to_delta_normalised.
    destruct (0 <=? e'); apply microseconds_to_delta_normalised.
Qed.

(** Whatever text the duration coercer accepts, the span it returns is
    a normalised [timedelta]: at most 999999999 days in magnitude, with
    seconds within a day and microseconds within a second; and the
    coercer leaves nothing in the log. *)
Theorem Timespan_normalised (text : string) (log : list event) (v : value) :
  Timespan text = (log, Returns v) ->
  log = [] /\ exists d, v = VTimedelta d /\ normalised d.
Proof.
  unfold Timespan.
  destruct (split text) as [|count_text [|unit [|x l]]]; try discriminate.
  unfold bind, lift, ret, raise.
  destruct (int count_text) as [count|e]; [|discriminate].
  destruct (scale_by_unit _) as [scale|]; [|discriminate].
  destruct (timedelta_seconds count scale) as [d|e] eqn:Hd; [|discriminate].
  simpl. intros H. inversion H. split; [reflexivity|].
  exists d. split; [reflexivity|].
  unfold timedelta_seconds in Hd. destruct scale as [k|f].
  - exact (microseconds_to_delta_normalised _ _ Hd).
  - destruct (float_of_int count) as [c|e]; [|discriminate].
    exact (timedelta_of_float_normalised _ _ Hd).
Qed.

Lemma Timespan_normalised_witness :
  [] = @nil event /\
  exists d, VTimedelta (mk_timedelta (-1) 86399 999000) = VTimedelta d /\
            normalised d.
Proof.
  apply (Timespan_normalised "-1 millisecond"). vm_compute. reflexivity.
Defined.

(** ** Integers and endpoints *)

Lemma uint_value_pos (d : Decimal.uint) :
  forall p, uint_value d (Z.pos p) = Z.pos (Pos.of_uint_acc d p).
Proof.
  induction d; intros p; cbn [uint_value Pos.of_uint_acc]; try reflexivity;
    rewrite <- IHd; f_equal; lia.
Qed.

Lemma uint_value_zero (d : Decimal.uint) : uint_value d 0 = Z.of_uint d.
Proof.
  unfold Z.of_uint.
  induction d; simpl; try reflexivity; try exact IHd;
    apply (uint_value_pos d).
Qed.

Lemma digits_contains (c : ascii) (d : Decimal.uint) :
  contains c (NilEmpty.string_of_uint d) = true -> isdigit c = true.
Proof.
  induction d; cbn [NilEmpty.string_of_uint contains]; try discriminate;
    intros H; apply orb_prop in H as [H | H]; auto;
    apply Ascii.eqb_eq in H; subst; reflexivity.
Qed.

Lemma int_digits_uint (d : Decimal.uint) :
  forall acc after_digit,
    d <> Decimal.Nil \/ after_digit = true ->
    int_digits (NilEmpty.string_of_uint d) acc after_digit =
    Some (uint_value d acc).
Proof.
  induction d; intros acc after_digit H;
    try (cbn [NilEmpty.string_of_uint uint_value int_digits];
         match goal with
         | |- context [isdigit ?c] =>
             let v := eval vm_compute in (digit_value c) in
             change (isdigit c) with true; change (digit_value c) with v
         end;
         cbv iota; rewrite (IHd _ true (or_intror eq_refl));
         f_equal; f_equal; lia).
  simpl. destruct H as [H | ->]; [congruence | reflexivity].
Qed.

Lemma rstrip_none (chars : ascii -> bool) (text : string) :
  (forall c, contains c text = true -> chars c = false) ->
  rstrip chars text = text.
Proof.
  induction text as [|a text IH]; intros H; simpl; [reflexivity|].
  rewrite IH.
  - destruct text; [|reflexivity].
    rewrite (H a); [reflexivity|]. simpl. rewrite Ascii.eqb_refl. reflexivity.
  - intros c Hc. apply H. simpl. rewrite Hc. apply orb_true_r.
Qed.

Lemma lstrip_none (chars : ascii -> bool) (text : string) :
  (forall c, contains c text = true -> chars c = false) ->
  lstrip chars text = text.
Proof.
  destruct text as [|a text]; intros H; simpl; [reflexivity|].
  rewrite (H a); [reflexivity|]. simpl. rewrite Ascii.eqb_refl. reflexivity.
Qed.

Lemma isdigit_not_space (c : ascii) : isdigit c = true -> int_isspace c = false.
Proof.
  unfold isdigit, int_isspace. intros H. apply andb_prop in H as [H1 H2].
  apply Nat.leb_le in H1, H2.
  apply orb_false_intro; [apply andb_false_intro2|]; 
    [apply Nat.leb_gt | apply Nat.eqb_neq]; lia.
Qed.

Lemma int_literal_digits (d : Decimal.uint) :
  d <> Decimal.Nil ->
  int_literal (NilEmpty.string_of_uint d) = Some (Z.of_uint d).
Proof.
  intros Hd. unfold int_literal.
  assert (Hspace : forall c, contains c (NilEmpty.string_of_uint d) = true ->
                             int_isspace c = false).
  { intros c Hc. apply isdigit_not_space. exact (digits_contains _ _ Hc). }
  rewrite (lstrip_none _ _ Hspace), (rstrip_none _ _ Hspace).
  rewrite <- uint_value_zero.
  rewrite <- (int_digits_uint d 0 false (or_introl Hd)).
  destruct d; [congruence | reflexivity ..].
Qed.

Lemma int_literal_negative (d : Decimal.uint) :
  d <> Decimal.Nil ->
  int_literal (String.String "-" (NilEmpty.string_of_uint d)) =
  Some (- Z.of_uint d).
Proof.
  intros Hd. unfold int_literal.
  assert (Hspace : forall c,
             contains c (String.String "-" (NilEmpty.string_of_uint d)) = true ->
             int_isspace c = false).
  { intros c Hc. cbn [contains] in Hc. apply orb_prop in Hc as [Hc | Hc].
    - apply Ascii.eqb_eq in Hc. subst. reflexivity.
    - apply isdigit_not_space. exact (digits_contains _ _ Hc). }
  rewrite (lstrip_none _ _ Hspace), (rstrip_none _ _ Hspace).
  cbv beta iota. rewrite (int_digits_uint d 0 false (or_introl Hd)).
  rewrite uint_value_zero. reflexivity.
Qed.

Lemma decimal_cases (n : Z) :
  exists d,
    d <> Decimal.Nil /\
    ((decimal n = NilEmpty.string_of_uint d /\ Z.of_uint d = n) \/
     (decimal n = String.String "-" (NilEmpty.string_of_uint d) /\
      - Z.of_uint d = n)).
Proof.
  pose proof (DecimalZ.of_to n) as Hn. unfold decimal.
  destruct n as [|p|p]; simpl in *.
  - exists (Decimal.D0 Decimal.Nil). split; [discriminate | left; auto].
  - exists (Pos.to_uint p).
    pose proof (DecimalPos.Unsigned.to_uint_nonnil p) as Hnil.
    split; [exact Hnil | left]. split; [|exact Hn].
    destruct (Pos.to_uint p); [congruence | reflexivity ..].
  - exists (Pos.to_uint p).
    pose proof (DecimalPos.Unsigned.to_uint_nonnil p) as Hnil.
    split; [exact Hnil | right]. split; [|exact Hn].
    destruct (Pos.to_uint p); [congruence | reflexivity ..].
Qed.

Lemma int_decimal (n : Z) : int (decimal n) = Returns n.
Proof.
  unfold int.
  destruct (decimal_cases n) as (d & Hd & [[-> <-] | [-> <-]]).
  - rewrite (int_literal_digits d Hd). reflexivity.
  - rewrite (int_literal_negative d Hd). reflexivity.
Qed.


Lemma partition_spec (sep : ascii) (text before found after : string) :
  partition sep text = (before, found, after) ->
  (found = String.String sep EmptyString /\
   text = before ++ String.String sep after /\ contains sep before = false) \/
  (found = EmptyString /\ contains sep text = false).
Proof.
  revert before found after.
  induction text as [|a text IH]; intros before found after; simpl.
  - intros H. inversion H. right. auto.
  - destruct (Ascii.eqb_spec a sep) as [->|Hne].
    + intros H. inversion H. left. auto.
    + destruct (partition sep text) as [[b f] r].
      intros H. inversion H. subst.
      apply Ascii.eqb_neq in Hne.
      destruct (IH b found after eq_refl) as [(Hf & Ht & Hb) | (Hf & Hc)].
      * left. split; [exact Hf|]. split; [rewrite Ht; reflexivity|].
        cbn [contains]. rewrite Hne, Hb. reflexivity.
      * right. split; [exact Hf | exact Hc].
Qed.

Lemma contains_append (c : ascii) (a b : string) :
  contains c (a ++ b) = contains c a || contains c b.
Proof.
  induction a as [|x a IH]; simpl; [reflexivity|].
  rewrite IH, orb_assoc. reflexivity.
Qed.

Lemma Endpoint_host_port (host port_text : string) :
  contains "/" (host ++ ":" ++ port_text) = false ->
  contains ":" host = false ->
  Endpoint (host ++ ":" ++ port_text) =
  (n <- lift (int port_text) ;;
   ret (VEndpoint (mk_EndpointConfiguration AF_INET
                     (Internet (mk_InternetAddress host n))))).
Proof.
  intros Hslash Hhost.
  assert (Hcons : exists a rest,
             host ++ ":" ++ port_text = String.String a rest).
  { destruct host; simpl; eauto. }
  destruct Hcons as (a & rest & Hcons).
  unfold Endpoint. rewrite Hslash.
  change (host ++ ":" ++ port_text) with (host ++ String.String ":" port_text).
  rewrite (partition_found _ _ _ Hhost).
  change (host ++ String.String ":" port_text) with (host ++ ":" ++ port_text).
  rewrite Hcons. reflexivity.
Qed.

Lemma Endpoint_returns (text : string) (log : list event) (v : value) :
  Endpoint text = (log, Returns v) ->
  log = [] /\
  ((contains "/" text = true /\
    v = VEndpoint (mk_EndpointConfiguration AF_UNIX (Path text))) \/
   (contains "/" text = false /\
    exists host port_text n,
      text = host ++ ":" ++ port_text /\ contains ":" host = false /\
      int port_text = Returns n /\
      v = VEndpoint (mk_EndpointConfiguration AF_INET
                       (Internet (mk_InternetAddress host n))))).
Proof.
  unfold Endpoint. destruct text as [|a rest]; [discriminate|].
  destruct (contains "/" (String.String a rest)) eqn:Hslash.
  - intros H. inversion H. auto.
  - destruct (partition ":" (String.String a rest)) as [[host sep] port_text]
      eqn:Hpart.
    apply partition_spec in Hpart as [(-> & Htext & Hhost) | (-> & _)];
      [|discriminate].
    simpl negb. cbv iota. unfold bind, lift, ret.
    destruct (int port_text) as [n|e] eqn:Hn; [|discriminate].
    simpl. intros H. inversion H. split; [reflexivity|]. right.
    split; [reflexivity|]. exists host, port_text, n. auto.
Qed.

(** What the endpoint coercer returns is either the domain-socket
    endpoint of the whole text, which then contains ['/'], or the
    internet endpoint of a host without [':'] and of the integer read
    after the first [':'] of a text without ['/']; in both cases the
    family agrees with the kind of address. *)
Theorem Endpoint_shape (text : string) (log : list event) (v : value) :
  Endpoint text = (log, Returns v) ->
  log = [] /\
  ((contains "/" text = true /\
    v = VEndpoint (mk_EndpointConfiguration AF_UNIX (Path text))) \/
   (contains "/" text = false /\
    exists host port_text n,
      text = host ++ ":" ++ port_text /\ contains ":" host = false /\
      int port_text = Returns n /\
      v = VEndpoint (mk_EndpointConfiguration AF_INET
                       (Internet (mk_InternetAddress host n))))).
Proof. exact (Endpoint_returns text log v). Qed.

Lemma Endpoint_shape_witness :
  [] = @nil event /\
  ((contains "/" "localhost:8200" = true /\
    VEndpoint (mk_EndpointConfiguration AF_INET
                 (Internet (mk_InternetAddress "localhost" 8200))) =
    VEndpoint (mk_EndpointConfiguration AF_UNIX (Path "localhost:8200"))) \/
   (contains "/" "localhost:8200" = false /\
    exists host port_text n,
      "localhost:8200" = host ++ ":" ++ port_text /\
      contains ":" host = false /\ int port_text = Returns n /\
      VEndpoint (mk_EndpointConfiguration AF_INET
                   (Internet (mk_InternetAddress "localhost" 8200))) =
      VEndpoint (mk_EndpointConfiguration AF_INET
                   (Internet (mk_InternetAddress host n))))).
Proof.
  apply (Endpoint_shape "localhost:8200"). reflexivity.
Defined.

Lemma decimal_no_slash (n : Z) : contains "/" (decimal n) = false.
Proof.
  destruct (decimal_cases n) as (d & _ & [[-> _] | [-> _]]);
    cbn [contains];
    (destruct (contains "/" (NilEmpty.string_of_uint d)) eqn:H;
     [apply digits_contains in H; discriminate H | reflexivity]).
Qed.

(** An endpoint printed with [str] and parsed again is the same
    endpoint: the text of a parsed endpoint is accepted by the endpoint
    coercer, which returns that endpoint. *)
Theorem Endpoint_str_round_trip (text : string) (log : list event)
    (e : EndpointConfiguration) :
  Endpoint text = (log, Returns (VEndpoint e)) ->
  Endpoint (EndpointConfiguration_str e) = ([], Returns (VEndpoint e)).
Proof.
  intros H.
  destruct (Endpoint_returns _ _ _ H)
    as (_ & [(Hslash & He) | (Hslash & h & port_text & n & -> & Hhost & _ & He)]);
    inversion He; subst e; unfold EndpointConfiguration_str;
    cbn [address].
  - destruct text as [|a rest]; [discriminate|].
    unfold Endpoint. rewrite Hslash. reflexivity.
  - unfold InternetAddress_str. cbn [host port].
    rewrite contains_append in Hslash. apply orb_false_elim in Hslash as [Hh _].
    rewrite Endpoint_host_port.
    + rewrite int_decimal. reflexivity.
    + rewrite contains_append, Hh. cbn [append contains].
      rewrite decimal_no_slash. reflexivity.
    + exact Hhost.
Qed.

Lemma Endpoint_str_round_trip_witness :
  Endpoint
    (EndpointConfiguration_str
       (mk_EndpointConfiguration AF_INET
          (Internet (mk_InternetAddress "localhost" 8200)))) =
  ([], Returns (VEndpoint (mk_EndpointConfiguration AF_INET
                             (Internet (mk_InternetAddress "localhost" 8200))))).
Proof.
  apply (Endpoint_str_round_trip "localhost:+82_00" []). reflexivity.
Defined.

(** ** Booleans and lists *)

Lemma lower_char_idempotent (c : ascii) :
  lower_char (lower_char c) = lower_char c.
Proof.
  destruct c as [[] [] [] [] [] [] [] []]; reflexivity.
Qed.

Lemma lower_idempotent (text : string) : lower (lower text) = lower text.
Proof.
  induction text as [|a text IH]; simpl; [reflexivity|].
  rewrite lower_char_idempotent, IH. reflexivity.
Qed.

(** The boolean coercer ignores the case of its text: it returns
    [True] exactly on the spellings of ["true"], [False] exactly on the
    spellings of ["false"], and fails on every other text with a
    [ValueError] that lists the two names. *)
Theorem Boolean_case_insensitive (text : string) :
  (forall b,
      Boolean text = ([], Returns b) <->
      lower text = if b then "true" else "false") /\
  (lower text <> "true" -> lower text <> "false" ->
   Boolean text =
   ([], Raises (ValueError "expected one of dict_keys(['true', 'false'])"))) /\
  Boolean (lower text) = Boolean text.
Proof.
  unfold Boolean, OneOf. rewrite lower_idempotent.
  cbn [dict_get].
  destruct (String.eqb_spec "true" (lower text)) as [Ht | Ht].
  - split; [|split; [congruence | reflexivity]].
    intros [|]; split; intros H; try reflexivity; try congruence;
      try discriminate H; rewrite <- Ht in H; discriminate H.
  - destruct (String.eqb_spec "false" (lower text)) as [Hf | Hf].
    + split; [|split; [congruence | reflexivity]].
      intros [|]; split; intros H; try reflexivity; try congruence;
        discriminate H.
    + split; [|split; reflexivity].
      intros [|]; split; intros H; (discriminate H || congruence).
Qed.

Lemma Boolean_case_insensitive_witness :
  Boolean "TRUE" = ([], Returns true) /\
  Boolean "yes" =
    ([], Raises (ValueError "expected one of dict_keys(['true', 'false'])")).
Proof.
  split.
  - apply (proj1 (Boolean_case_insensitive "TRUE")). reflexivity.
  - apply (proj1 (proj2 (Boolean_case_insensitive "yes"))); discriminate.
Defined.

Lemma lstrip_blank (text : string) :
  (forall c, contains c text = true -> isspace c = true) ->
  lstrip isspace text = EmptyString.
Proof.
  induction text as [|a text IH]; intros H; simpl; [reflexivity|].
  rewrite (H a) by (simpl; rewrite Ascii.eqb_refl; reflexivity).
  apply IH. intros c Hc. apply H. simpl. rewrite Hc. apply orb_true_r.
Qed.

Lemma split_on_blank (text : string) :
  (forall c, contains c text = true -> c = ","%char \/ isspace c = true) ->
  forall piece, In piece (split_on "," text) -> strip piece = EmptyString.
Proof.
  induction text as [|a text IH]; intros H piece Hin.
  - destruct Hin as [<- | []]. reflexivity.
  - assert (Htext : forall c, contains c text = true ->
                              c = ","%char \/ isspace c = true).
    { intros c Hc. apply H. simpl. rewrite Hc. apply orb_true_r. }
    cbn [split_on] in Hin.
    destruct (Ascii.eqb_spec a ",") as [->|Hne].
    + destruct Hin as [<- | Hin]; [reflexivity | exact (IH Htext _ Hin)].
    + assert (Ha : isspace a = true).
      { destruct (H a) as [Ha | Ha]; [|congruence|exact Ha].
        simpl. rewrite Ascii.eqb_refl. reflexivity. }
      destruct (split_on "," text) as [|first pieces] eqn:Hsplit.
      * destruct Hin as [<- | []]. unfold strip. simpl. rewrite Ha. reflexivity.
      * destruct Hin as [<- | Hin].
        -- unfold strip. simpl. rewrite Ha.
           apply (IH Htext first). left. reflexivity.
        -- apply (IH Htext piece). right. exact Hin.
Qed.

Lemma TupleOf_items_blank {T} (item_parser : string -> M T) (items : list string) :
  (forall item, In item items -> item = EmptyString) ->
  TupleOf_items item_parser items = ([], Returns []).
Proof.
  induction items as [|item items IH]; intros H; [reflexivity|].
  simpl. rewrite (H item (or_introl eq_refl)).
  apply IH. intros x Hx. apply H. right. exact Hx.
Qed.

(** A non-empty list text made only of commas and whitespace is
    accepted, with an empty list as result and no call of the item
    parser. *)
Theorem TupleOf_only_separators {T} (item_parser : string -> M T) (text : string) :
  text <> EmptyString ->
  (forall c, contains c text = true -> c = ","%char \/ isspace c = true) ->
  TupleOf item_parser text = ([], Returns []).
Proof.
  intros Hne H. unfold TupleOf. destruct text as [|a rest]; [congruence|].
  apply TupleOf_items_blank. intros item Hin.
  apply in_map_iff in Hin as (piece & <- & Hpiece).
  exact (split_on_blank _ H _ Hpiece).
Qed.

Lemma TupleOf_only_separators_witness :
  TupleOf (traced "item" Integer) " , ," = ([], Returns []).
Proof.
  apply TupleOf_only_separators; [discriminate|].
  intros c Hc. cbn [contains] in Hc.
  repeat (apply orb_prop in Hc as [Hc | Hc];
          [apply Ascii.eqb_eq in Hc; subst; (left; reflexivity) || (right; reflexivity)|]).
  discriminate Hc.
Defined.

Lemma split_on_none (sep : ascii) (text : string) :
  contains sep text = false -> split_on sep text = [text].
Proof.
  induction text as [|a text IH]; simpl; intros H; [reflexivity|].
  apply orb_false_elim in H as [Ha Htext]. rewrite Ha, (IH Htext). reflexivity.
Qed.

Lemma split_on_append (sep : ascii) (first rest : string) :
  contains sep first = false ->
  split_on sep (first ++ String.String sep rest) = first :: split_on sep rest.
Proof.
  induction first as [|a first IH]; simpl; intros H.
  - rewrite Ascii.eqb_refl. reflexivity.
  - apply orb_false_elim in H as [Ha Hfirst]. rewrite Ha, (IH Hfirst).
    reflexivity.
Qed.

Lemma split_on_concat (items : list string) :
  items <> [] ->
  (forall item, In item items -> contains "," item = false) ->
  split_on "," (String.concat "," items) = items.
Proof.
  induction items as [|item items IH]; intros Hne H; [congruence|].
  destruct items as [|next items].
  - simpl. apply split_on_none, H. left. reflexivity.
  - change (String.concat "," (item :: next :: items))
      with (item ++ String.String "," (String.concat "," (next :: items))).
    rewrite split_on_append by (apply H; left; reflexivity).
    rewrite IH; [reflexivity | discriminate|].
    intros x Hx. apply H. right. exact Hx.
Qed.

Lemma map_strip_id (items : list string) :
  (forall item, In item items -> strip item = item) -> map strip items = items.
Proof.
  induction items as [|item items IH]; intros H; simpl; [reflexivity|].
  rewrite (H item (or_introl eq_refl)), IH; [reflexivity|].
  intros x Hx. apply H. right. exact Hx.
Qed.

Lemma TupleOf_concat {T} (item_parser : string -> M T) (items : list string) :
  items <> [] ->
  (forall item, In item items ->
     item <> EmptyString /\ contains "," item = false /\ strip item = item) ->
  TupleOf item_parser (String.concat "," items) =
  TupleOf_items item_parser items.
Proof.
  intros Hne H. unfold TupleOf.
  rewrite split_on_concat, map_strip_id; try (intros x Hx; apply H, Hx); auto.
  destruct (String.concat "," items) eqn:Hc; [|reflexivity].
  destruct items as [|item items]; [congruence|].
  destruct (H item (or_introl eq_refl)) as (Hitem & _).
  destruct item; [congruence|]. destruct items; discriminate Hc.
Qed.

Lemma TupleOf_items_success {T} (item_parser : string -> M T)
    (entries : list (string * (list event * T))) :
  (forall item log v,
      In (item, (log, v)) entries ->
      item <> EmptyString /\ item_parser item = (log, Returns v)) ->
  TupleOf_items item_parser (map fst entries) =
  (List.concat (map (fun entry => fst (snd entry)) entries),
   Returns (map (fun entry => snd (snd entry)) entries)).
Proof.
  induction entries as [|[item [log v]] entries IH]; intros H; [reflexivity|].
  destruct (H item log v (or_introl eq_refl)) as (Hne & Hitem).
  cbn [map fst snd TupleOf_items List.concat].
  destruct item; [congruence|].
  rewrite Hitem, IH by (intros i l x Hin; apply H; right; exact Hin).
  unfold bind, ret. simpl. rewrite app_nil_r. reflexivity.
Qed.

(** A list text of items separated by commas, each item non-empty,
    without surrounding whitespace and accepted by the item parser,
    yields the parsed items in the order of the text, the item parser
    being called once per item from left to right. *)
Theorem TupleOf_parses_each_item {T} (item_parser : string -> M T)
    (entries : list (string * (list event * T))) :
  entries <> [] ->
  (forall item log v,
      In (item, (log, v)) entries ->
      item <> EmptyString /\ contains "," item = false /\ strip item = item /\
      item_parser item = (log, Returns v)) ->
  TupleOf item_parser (String.concat "," (map fst entries)) =
  (List.concat (map (fun entry => fst (snd entry)) entries),
   Returns (map (fun entry => snd (snd entry)) entries)).
Proof.
  intros Hne H. rewrite TupleOf_concat.
  - apply TupleOf_items_success. intros item log v Hin.
    destruct (H _ _ _ Hin) as (H1 & _ & _ & H4). auto.
  - destruct entries; [congruence | discriminate].
  - intros item Hin. apply in_map_iff in Hin as ([i [l v]] & <- & Hin).
    destruct (H _ _ _ Hin) as (H1 & H2 & H3 & _). auto.
Qed.

Lemma TupleOf_parses_each_item_witness :
  TupleOf (traced "item" Integer)
    (String.concat ","
       (map fst [("1", ([Invoked "item" "1"], VInt 1));
                 ("20", ([Invoked "item" "20"], VInt 20))])) =
  ([Invoked "item" "1"; Invoked "item" "20"], Returns [VInt 1; VInt 20]).
Proof.
  apply (TupleOf_parses_each_item (traced "item" Integer)
           [("1", ([Invoked "item" "1"], VInt 1));
            ("20", ([Invoked "item" "20"], VInt 20))]);
    [discriminate|].
  intros item log v [H | [H | []]]; inversion H; subst;
    (split; [discriminate|]); split; try reflexivity; split; reflexivity.
Defined.

Lemma TupleOf_items_failure {T} (item_parser : string -> M T)
    (entries : list (string * (list event * T))) (bad : string)
    (log : list event) (e : exn) (after : list string) :
  (forall item l v,
      In (item, (l, v)) entries ->
      item <> EmptyString /\ item_parser item = (l, Returns v)) ->
  bad <> EmptyString -> item_parser bad = (log, Raises e) ->
  TupleOf_items item_parser (map fst entries ++ bad :: after) =
  ((List.concat (map (fun entry => fst (snd entry)) entries) ++ log)%list,
   Raises e).
Proof.
  intros H Hbad Hfail.
  induction entries as [|[item [l v]] entries IH].
  - simpl. destruct bad; [congruence|]. rewrite Hfail. reflexivity.
  - destruct (H item l v (or_introl eq_refl)) as (Hne & Hitem).
    cbn [map fst snd TupleOf_items List.concat app].
    destruct item; [congruence|].
    rewrite Hitem, IH by (intros i l' x Hin; apply H; right; exact Hin).
    unfold bind. simpl. rewrite app_assoc. reflexivity.
Qed.

(** The first item that the item parser rejects ends the parse of a
    list text with that failure: the items before it have been parsed,
    the items after it are not looked at, however malformed. *)
Theorem TupleOf_fail_fast {T} (item_parser : string -> M T)
    (entries : list (string * (list event * T))) (bad : string)
    (log : list event) (e : exn) (after : list string) :
  (forall item l v,
      In (item, (l, v)) entries ->
      item <> EmptyString /\ contains "," item = false /\ strip item = item /\
      item_parser item = (l, Returns v)) ->
  bad <> EmptyString -> contains "," bad = false -> strip bad = bad ->
  item_parser bad = (log, Raises e) ->
  (forall item, In item after ->
     item <> EmptyString /\ contains "," item = false /\ strip item = item) ->
  TupleOf item_parser
    (String.concat "," (map fst entries ++ bad :: after)%list) =
  ((List.concat (map (fun entry => fst (snd entry)) entries) ++ log)%list,
   Raises e).
Proof.
  intros H Hbad Hcomma Hstrip Hfail Hafter. rewrite TupleOf_concat.
  - apply TupleOf_items_failure; auto.
    intros item l v Hin. destruct (H _ _ _ Hin) as (H1 & _ & _ & H4). auto.
  - destruct (map fst entries); discriminate.
  - intros item Hin. apply in_app_or in Hin as [Hin | [<- | Hin]].
    + apply in_map_iff in Hin as ([i [l v]] & <- & Hin).
      destruct (H _ _ _ Hin) as (H1 & H2 & H3 & _). auto.
    + auto.
    + apply Hafter, Hin.
Qed.

Lemma TupleOf_fail_fast_witness :
  TupleOf (traced "item" Integer)
    (String.concat ","
       (map fst [("1", ([Invoked "item" "1"], VInt 1))] ++ "x" :: ["y"])%list) =
  (([Invoked "item" "1"] ++ [Invoked "item" "x"])%list,
   Raises (ValueError "invalid literal for int() with base 10: 'x'")).
Proof.
  apply (TupleOf_fail_fast (traced "item" Integer)
           [("1", ([Invoked "item" "1"], VInt 1))] "x"
           [Invoked "item" "x"]
           (ValueError "invalid literal for int() with base 10: 'x'") ["y"]);
    try reflexivity; try discriminate.
  - intros item l v [H | []]. inversion H. subst.
    split; [discriminate|]. split; [reflexivity|]. split; reflexivity.
  - intros item [<- | []].
    split; [discriminate|]. split; reflexivity.
Defined.

(** ** Namespaces returned by the resolvers *)

Lemma dict_keys_set_new {V} (d : dict V) (key : string) (v : V) :
  ~ In key (dict_keys d) ->
  dict_keys (dict_set d key v) = (dict_keys d ++ [key])%list.
Proof.
  induction d as [|[k x] d IH]; simpl; intros H; [reflexivity|].
  destruct (String.eqb_spec k key) as [->|Hne].
  - exfalso. apply H. left. reflexivity.
  - simpl. rewrite IH; [reflexivity|]. intros Hin. apply H. right. exact Hin.
Qed.

Lemma getattr_field (ns : ConfigNamespace) (name : string) (v : value) :
  dict_get ns name = Some v ->
  name <> "__class__" -> name <> "__dict__" -> name <> "__weakref__" ->
  getattr ns name = v.
Proof.
  intros Hget H1 H2 H3. unfold getattr.
  apply String.eqb_neq in H1, H2, H3. rewrite H1, H2, H3, Hget. reflexivity.
Qed.

Section ItemValues.

Variable resolve : ConfigSpecItem -> string -> M value.
Variable key_path : string.

Lemma items_values (spec : ConfigSpec) :
  forall parsed log ns,
    SpecParser_items resolve key_path spec parsed = (log, Returns (VNamespace ns)) ->
    NoDup (map fst spec) ->
    (forall key item,
        In (key, item) spec ->
        exists l v,
          resolve item (sub_key_path key_path key) = (l, Returns v) /\
          dict_get ns key = Some v) /\
    (forall key, ~ In key (map fst spec) -> dict_get ns key = dict_get parsed key).
Proof.
  induction spec as [|[k it] spec IH]; intros parsed log ns H Hnodup.
  - simpl in H. inversion H. subst. split; [intros key item []|reflexivity].
  - rewrite items_step in H.
    destruct (contains "." k); [discriminate H|].
    unfold bind in H.
    destruct (resolve it (sub_key_path key_path k)) as [la [x|e]] eqn:Hit;
      [|discriminate H].
    destruct (SpecParser_items resolve key_path spec (dict_set parsed k x))
      as [lb r] eqn:Hrest.
    inversion H. subst. inversion Hnodup as [|? ? Hk Hnd]. subst.
    destruct (IH _ _ _ Hrest Hnd) as (Hfields & Hother).
    split.
    + intros key item [Heq | Hin].
      * inversion Heq. subst. exists la, x. split; [exact Hit|].
        rewrite (Hother key Hk). apply dict_get_set_same.
      * apply Hfields, Hin.
    + intros key Hkey. simpl in Hkey.
      rewrite Hother by tauto.
      apply dict_get_set_other. intros ->. apply Hkey. left. reflexivity.
Qed.

Lemma items_keys (spec : ConfigSpec) :
  forall parsed log ns,
    SpecParser_items resolve key_path spec parsed = (log, Returns (VNamespace ns)) ->
    NoDup (dict_keys parsed ++ map fst spec) ->
    dict_keys ns = (dict_keys parsed ++ map fst spec)%list.
Proof.
  induction spec as [|[k it] spec IH]; intros parsed log ns H Hnodup.
  - simpl in H. inversion H. subst. simpl. rewrite app_nil_r. reflexivity.
  - rewrite items_step in H.
    destruct (contains "." k); [discriminate H|].
    unfold bind in H.
    destruct (resolve it (sub_key_path key_path k)) as [la [x|e]];
      [|discriminate H].
    destruct (SpecParser_items resolve key_path spec (dict_set parsed k x))
      as [lb r] eqn:Hrest.
    inversion H. subst. simpl in Hnodup.
    assert (Hk : ~ In k (dict_keys parsed)).
    { apply NoDup_remove_2 in Hnodup. intros Hin. apply Hnodup.
      apply in_or_app. left. exact Hin. }
    rewrite (IH _ _ _ Hrest).
    + rewrite (dict_keys_set_new _ _ _ Hk), <- app_assoc. reflexivity.
    + rewrite (dict_keys_set_new _ _ _ Hk), <- app_assoc. exact Hnodup.
Qed.

End ItemValues.

(** After a structural parse that succeeds, each declared field holds
    the value its own parser returned for the child key path, and
    attribute access under the field name gives that value (the three
    names that attribute access reserves for the object apart). *)
Theorem SpecParser_field_values (re : engine) (spec : ConfigSpec)
    (key_path : string) (raw_config : RawConfig) (log : list event)
    (ns : ConfigNamespace) :
  parse re (SpecParser spec) key_path raw_config = (log, Returns (VNamespace ns)) ->
  NoDup (map fst spec) ->
  forall key item,
    In (key, item) spec ->
    exists l v,
      resolve_parse re item (sub_key_path key_path key) raw_config =
        (l, Returns v) /\
      dict_get ns key = Some v /\
      (key <> "__class__" -> key <> "__dict__" -> key <> "__weakref__" ->
       getattr ns key = v).
Proof.
  intros H Hnodup key item Hin. rewrite parse_SpecParser in H.
  destruct (items_values _ _ _ _ _ _ H Hnodup) as (Hfields & _).
  destruct (Hfields key item Hin) as (l & v & Hitem & Hget).
  exists l, v. split; [exact Hitem|]. split; [exact Hget|].
  apply getattr_field, Hget.
Qed.

Lemma SpecParser_field_values_witness :
  exists l v,
    resolve_parse re_compile_literal (SpecCallable Integer)
      (sub_key_path "svc" "c") service_example = (l, Returns v) /\
    dict_get [("a", VInt 1); ("c", VInt 3)] "c" = Some v /\
    ("c" <> "__class__" -> "c" <> "__dict__" -> "c" <> "__weakref__" ->
     getattr [("a", VInt 1); ("c", VInt 3)] "c" = v).
Proof.
  apply (SpecParser_field_values re_compile_literal
           [("a", SpecCallable Integer); ("c", SpecCallable Integer)]
           "svc" service_example [RawGet "svc.a"; RawGet "svc.c"]).
  - reflexivity.
  - repeat constructor; simpl; intuition discriminate.
  - right. left. reflexivity.
Defined.

(** The namespace of a structural parse lists its fields in the order
    in which the spec declares them. *)
Theorem SpecParser_field_order (re : engine) (spec : ConfigSpec)
    (key_path : string) (raw_config : RawConfig) (log : list event)
    (ns : ConfigNamespace) :
  parse re (SpecParser spec) key_path raw_config = (log, Returns (VNamespace ns)) ->
  NoDup (map fst spec) ->
  dict_keys ns = map fst spec.
Proof.
  intros H Hnodup. rewrite parse_SpecParser in H.
  exact (items_keys _ _ _ _ _ _ H Hnodup).
Qed.

Lemma SpecParser_field_order_witness :
  dict_keys [("c", VInt 3); ("a", VInt 1)] = map fst
    [("c", SpecCallable Integer); ("a", SpecCallable Integer)].
Proof.
  apply (SpecParser_field_order re_compile_literal
           [("c", SpecCallable Integer); ("a", SpecCallable Integer)]
           "svc" service_example [RawGet "svc.c"; RawGet "svc.a"]).
  - reflexivity.
  - repeat constructor; simpl; intuition discriminate.
Defined.

Section ResolveAll.

Variable subparse : string -> M value.
Variable root : string.

Lemma resolve_all_values (subkeys : list string) :
  forall values log v,
    resolve_all subparse root subkeys values = (log, Returns v) ->
    NoDup (dict_keys values ++ subkeys) ->
    exists ns,
      v = VNamespace ns /\
      dict_keys ns = (dict_keys values ++ subkeys)%list /\
      (forall subkey,
          In subkey subkeys ->
          exists l x,
            subparse (root ++ subkey) = (l, Returns x) /\
            dict_get ns subkey = Some x) /\
      (forall key, ~ In key subkeys -> dict_get ns key = dict_get values key).
Proof.
  induction subkeys as [|s subkeys IH]; intros values log v H Hnodup.
  - simpl in H. inversion H. exists values. rewrite app_nil_r.
    repeat split; auto. intros subkey [].
  - simpl in H. unfold bind in H.
    destruct (subparse (root ++ s)) as [la [x|e]] eqn:Hs; [|discriminate H].
    destruct (resolve_all subparse root subkeys (dict_set values s x))
      as [lb r] eqn:Hrest.
    inversion H. subst.
    assert (Hnew : ~ In s (dict_keys values)).
    { apply NoDup_remove_2 in Hnodup. intros Hin. apply Hnodup.
      apply in_or_app. left. exact Hin. }
    assert (Hlater : ~ In s subkeys).
    { apply NoDup_remove_2 in Hnodup. intros Hin. apply Hnodup.
      apply in_or_app. right. exact Hin. }
    destruct (IH _ _ _ Hrest) as (ns & -> & Hkeys & Hvals & Hother).
    { rewrite (dict_keys_set_new _ _ _ Hnew), <- app_assoc. exact Hnodup. }
    exists ns. split; [reflexivity|]. split; [|split].
    + rewrite Hkeys, (dict_keys_set_new _ _ _ Hnew), <- app_assoc. reflexivity.
    + intros subkey [<- | Hin]; [|apply Hvals, Hin].
      exists la, x. split; [exact Hs|].
      rewrite (Hother s Hlater). apply dict_get_set_same.
    + intros key Hkey. simpl in Hkey. rewrite Hother by tauto.
      apply dict_get_set_other. intros ->. apply Hkey. left. reflexivity.
Qed.


End ResolveAll.

(** The namespace of a dynamic parse that succeeds has the discovered
    subkeys as its fields, in first-seen order, and each field holds
    what the subordinate parser returned for the path of that subkey. *)
Theorem DictOf_namespace (re : engine) (subparser : Parser)
    (key_path : string) (raw_config : RawConfig)
    (matcher : string -> option string) (log : list event) (v : value) :
  re (DictOf_pattern (DictOf_root key_path)) = Returns matcher ->
  parse re (DictOf subparser) key_path raw_config = (log, Returns v) ->
  exists ns,
    v = VNamespace ns /\
    dict_keys ns = discover matcher (dict_keys raw_config) [] /\
    forall subkey,
      In subkey (dict_keys ns) ->
      exists l x,
        parse re subparser (DictOf_root key_path ++ subkey) raw_config =
          (l, Returns x) /\
        dict_get ns subkey = Some x.
Proof.
  intros Hre H. rewrite (parse_DictOf _ _ _ _ _ Hre) in H.
  unfold bind, tell in H.
  destruct (resolve_all _ _ _ _) as [l r] eqn:Hall.
  inversion H. subst.
  destruct (resolve_all_values _ _ _ _ _ _ Hall) as (ns & -> & Hkeys & Hvals & _).
  { apply discover_NoDup. }
  exists ns. split; [reflexivity|]. split; [exact Hkeys|].
  intros subkey Hin. apply Hvals. rewrite Hkeys in Hin. exact Hin.
Qed.

Lemma DictOf_namespace_witness :
  exists ns,
    VNamespace [("x", VInt 1); ("y", VInt 2)] = VNamespace ns /\
    dict_keys ns = discover (literal_search "a.") (dict_keys discovery_example) [] /\
    forall subkey,
      In subkey (dict_keys ns) ->
      exists l x,
        parse re_compile_literal (CallableParser Integer)
          (DictOf_root "a" ++ subkey) discovery_example = (l, Returns x) /\
        dict_get ns subkey = Some x.
Proof.
  apply (DictOf_namespace re_compile_literal (CallableParser Integer) "a"
           discovery_example (literal_search "a.")
           [RawKeys; RawGet "a.x"; RawGet "a.y"]);
    reflexivity.
Defined.



(** ** Where a configuration error points *)

Lemma sub_key_path_under (key_path key : string) :
  exists rest, sub_key_path key_path key = key_path ++ rest.
Proof.
  destruct key_path as [|a key_path].
  - exists key. reflexivity.
  - exists ("." ++ key). reflexivity.
Qed.

Lemma DictOf_root_under (key_path : string) :
  exists rest, DictOf_root key_path = key_path ++ rest.
Proof.
  destruct key_path as [|a key_path].
  - exists EmptyString. reflexivity.
  - exists ".". reflexivity.
Qed.

Lemma resolve_all_raises (subparse : string -> M value) (root : string)
    (subkeys : list string) :
  forall values log e,
    resolve_all subparse root subkeys values = (log, Raises e) ->
    exists subkey l,
      In subkey subkeys /\ subparse (root ++ subkey) = (l, Raises e).
Proof.
  induction subkeys as [|s subkeys IH]; intros values log e H.
  - discriminate H.
  - simpl in H. unfold bind in H.
    destruct (subparse (root ++ s)) as [la [x|e']] eqn:Hs.
    + destruct (resolve_all subparse root subkeys (dict_set values s x))
        as [lb r] eqn:Hrest.
      inversion H. subst.
      destruct (IH _ _ _ Hrest) as (subkey & l & Hin & Hsub).
      exists subkey, l. split; [right; exact Hin | exact Hsub].
    + inversion H. subst. exists s. eexists.
      split; [left; reflexivity | exact Hs].
Qed.

Lemma items_raises (resolve : ConfigSpecItem -> string -> M value)
    (key_path : string) (spec : ConfigSpec) :
  forall parsed log e,
    SpecParser_items resolve key_path spec parsed = (log, Raises e) ->
    (exists msg, e = AssertionError msg) \/
    exists key item l,
      In (key, item) spec /\
      resolve item (sub_key_path key_path key) = (l, Raises e).
Proof.
  induction spec as [|[k it] spec IH]; intros parsed log e H.
  - discriminate H.
  - rewrite items_step in H.
    destruct (contains "." k).
    + inversion H. left. eexists. reflexivity.
    + unfold bind in H.
      destruct (resolve it (sub_key_path key_path k)) as [la [x|e']] eqn:Hit.
      * destruct (SpecParser_items resolve key_path spec (dict_set parsed k x))
          as [lb r] eqn:Hrest.
        inversion H. subst.
        destruct (IH _ _ _ Hrest) as [Hassert | (key & item & l & Hin & Hres)];
          [left; exact Hassert|].
        right. exists key, item, l. split; [right; exact Hin | exact Hres].
      * inversion H. subst. right. exists k, it. eexists.
        split; [left; reflexivity | exact Hit].
Qed.

Lemma standard_entries (spec : ConfigSpec) :
  (fix all (l : ConfigSpec) : bool :=
     match l with
     | [] => true
     | (_, item) :: rest => standard_item item && all rest
     end) spec = true ->
  forall key item, In (key, item) spec -> standard_item item = true.
Proof.
  induction spec as [|[k it] spec IH]; intros H key item Hin.
  - destruct Hin.
  - apply andb_prop in H as [Hit Hrest].
    destruct Hin as [Heq | Hin].
    + inversion Heq. subst. exact Hit.
    + exact (IH Hrest key item Hin).
Qed.

(** A [ConfigurationError] raised by a parser built from the classes of
    the module always names a key at or below the key path that the
    parser was asked to parse. *)
Theorem ConfigurationError_key_under_path (re : engine) (parser : Parser) :
  (forall pattern key cause, re pattern <> Raises (ConfigurationError key cause)) ->
  standard parser = true ->
  forall key_path raw_config log key cause,
    parse re parser key_path raw_config =
      (log, Raises (ConfigurationError key cause)) ->
    exists rest, key = key_path ++ rest.
Proof.
  intros Hre. revert parser.
  apply (Parser_induction
           (fun parser =>
              standard parser = true ->
              forall key_path raw_config log key cause,
                parse re parser key_path raw_config =
                  (log, Raises (ConfigurationError key cause)) ->
                exists rest, key = key_path ++ rest)
           (fun spec =>
              standard_item spec = true ->
              forall key_path raw_config log key cause,
                resolve_parse re spec key_path raw_config =
                  (log, Raises (ConfigurationError key cause)) ->
                exists rest, key = key_path ++ rest)).
  - intros _ key_path raw_config log key cause H. discriminate H.
  - intros spec Hall Hstd key_path raw_config log key cause H.
    rewrite parse_SpecParser in H.
    apply items_raises in H as [[msg Hmsg] | (k & item & l & Hin & Hres)];
      [discriminate Hmsg|].
    rewrite Forall_forall in Hall.
    destruct (Hall (k, item) Hin (standard_entries _ Hstd _ _ Hin)
                _ _ _ _ _ Hres) as [rest ->].
    destruct (sub_key_path_under key_path k) as [r ->].
    exists (r ++ rest). apply append_assoc.
  - intros f _ key_path raw_config log key cause H.
    simpl in H. unfold CallableParser_parse, except_Exception, bind, tell in H.
    destruct (f (raw_get raw_config key_path EmptyString)) as [l [v|e]];
      [discriminate H|].
    destruct e; simpl in H; inversion H;
      exists EmptyString; symmetry; apply append_nil_r.
  - intros subparser IH Hstd key_path raw_config log key cause H.
    change (parse re (DictOf subparser) key_path raw_config)
      with (DictOf_parse re (parse re subparser) key_path raw_config) in H.
    unfold DictOf_parse in H.
    destruct (re (DictOf_pattern (DictOf_root key_path))) as [matcher|e] eqn:Hc.
    + change (lift (Returns matcher)) with (ret matcher) in H.
      rewrite bind_ret_l, DictOf_keys_discover in H.
      unfold bind, tell in H.
      destruct (resolve_all _ _ _ _) as [l r] eqn:Hall.
      inversion H. subst.
      apply resolve_all_raises in Hall as (subkey & l' & _ & Hsub).
      destruct (IH Hstd _ _ _ _ _ Hsub) as [rest ->].
      destruct (DictOf_root_under key_path) as [r ->].
      exists (r ++ subkey ++ rest).
      rewrite !append_assoc. reflexivity.
    + inversion H. subst. exfalso. exact (Hre _ _ _ Hc).
  - intros custom Hstd. discriminate Hstd.
  - intros p IH Hstd key_path raw_config log key cause H.
    exact (IH Hstd _ _ _ _ _ H).
  - intros d Hall Hstd key_path raw_config log key cause H.
    change (resolve_parse re (SpecDict d) key_path raw_config)
      with (parse re (SpecParser d) key_path raw_config) in H.
    rewrite parse_SpecParser in H.
    apply items_raises in H as [[msg Hmsg] | (k & item & l & Hin & Hres)];
      [discriminate Hmsg|].
    rewrite Forall_forall in Hall.
    destruct (Hall (k, item) Hin (standard_entries _ Hstd _ _ Hin)
                _ _ _ _ _ Hres) as [rest ->].
    destruct (sub_key_path_under key_path k) as [r ->].
    exists (r ++ rest). apply append_assoc.
  - intros f _ key_path raw_config log key cause H.
    simpl in H. unfold CallableParser_parse, except_Exception, bind, tell in H.
    destruct (f (raw_get raw_config key_path EmptyString)) as [l [v|e]];
      [discriminate H|].
    destruct e; simpl in H; inversion H;
      exists EmptyString; symmetry; apply append_nil_r.
  - intros repr _ key_path raw_config log key cause H. discriminate H.
Qed.

Lemma re_compile_literal_errors (pattern key : string) (cause : exn) :
  re_compile_literal pattern <> Raises (ConfigurationError key cause).
Proof.
  unfold re_compile_literal. destruct pattern as [|a body]; [discriminate|].
  destruct (Ascii.eqb a "^"); [|discriminate].
  destruct (literal_of_pattern body); discriminate.
Qed.

Lemma ConfigurationError_key_under_path_witness :
  exists rest, "svc.b" = "svc" ++ rest.
Proof.
  apply (ConfigurationError_key_under_path re_compile_literal
           (DictOf (CallableParser Integer)) re_compile_literal_errors eq_refl
           "svc" service_example [RawKeys; RawGet "svc.a"; RawGet "svc.b"] "svc.b"
           (ValueError "invalid literal for int() with base 10: 'x'")).
  reflexivity.
Defined.

(** ** The Vault client *)

Lemma endswith_append (c : ascii) (text : string) :
  endswith c (text ++ String.String c EmptyString) = true.
Proof.
  induction text as [|a text IH]; simpl.
  - apply Ascii.eqb_refl.
  - destruct text; exact IH.
Qed.

Lemma drop_last_append (c : ascii) (text : string) :
  drop_last (text ++ String.String c EmptyString) = text.
Proof.
  induction text as [|a text IH]; simpl; [reflexivity|].
  destruct text; simpl in *; [reflexivity|].
  rewrite IH. reflexivity.
Qed.

Lemma microseconds_to_delta_raises (us : Z) (e : exn) :
  microseconds_to_delta us = Raises e -> is_Exception e = true.
Proof.
  unfold microseconds_to_delta.
  destruct (_ || _); [intros H; inversion H; reflexivity|].
  destruct (_ || _); intros H; inversion H. reflexivity.
Qed.

Lemma timedelta_seconds_raises (count : Z) (scale : number) (e : exn) :
  timedelta_seconds count scale = Raises e -> is_Exception e = true.
Proof.
  unfold timedelta_seconds. destruct scale as [k|f].
  - apply microseconds_to_delta_raises.
  - unfold float_of_int.
    destruct (binary_normalize 53 1024 count 0 false) as [s | s | | s m x];
      try (intros H; inversion H; reflexivity);
      unfold timedelta_of_float;
      repeat match goal with
             | |- context [match ?f with _ => _ end] => destruct f
             | |- context [if ?b then _ else _] => destruct b
             end;
      try apply microseconds_to_delta_raises;
      intros H; inversion H; reflexivity.
Qed.

Lemma Timespan_raises_Exception (text : string) (log : list event) (e : exn) :
  Timespan text = (log, Raises e) -> is_Exception e = true.
Proof.
  unfold Timespan.
  destruct (split text) as [|count_text [|unit [|x l]]];
    try (intros H; inversion H; reflexivity).
  unfold bind, lift, ret, raise.
  destruct (int count_text) as [count|e'] eqn:Hint.
  - destruct (scale_by_unit _) as [scale|];
      [|intros H; inversion H; reflexivity].
    destruct (timedelta_seconds count scale) as [d|e'] eqn:Hd;
      [discriminate|].
    simpl. intros H. inversion H. subst.
    exact (timedelta_seconds_raises _ _ _ Hd).
  - intros H. inversion H. subst.
    apply int_raises_ValueError in Hint. destruct e; (discriminate || reflexivity).
Qed.

Lemma hvac_factory_prefix {S : Type} (re : engine) (app_config : RawConfig)
    (secrets_store : S) (key_path : string) :
  hvac_factory_from_config re app_config secrets_store (key_path ++ ".") =
  (tell [RawGet (sub_key_path key_path "timeout")] ;;;
   v <- except_Exception
          (Optional Timespan (VTimedelta (mk_timedelta 0 1 0))
             (raw_get app_config (sub_key_path key_path "timeout") EmptyString))
          (ConfigurationError (sub_key_path key_path "timeout")) ;;
   ret (mk_HvacContextFactory secrets_store v)).
Proof.
  unfold hvac_factory_from_config.
  rewrite (endswith_append "." key_path), (drop_last_append "." key_path).
  cbn [negb]. rewrite parse_SpecParser, items_step.
  change (contains "." "timeout") with false. cbv iota.
  change (resolve_parse re (SpecCallable ?f) ?k ?r)
    with (CallableParser_parse f k r).
  unfold CallableParser_parse, bind, tell, ret, except_Exception.
  destruct (Optional Timespan _ _) as [l [v|e]];
    [|destruct (is_Exception e)]; simpl; rewrite ?app_nil_r; reflexivity.
Qed.

(** The Vault client reads one raw key, [timeout] under its own key
    path.  When the key is missing or empty the factory gets a timeout
    of one second; otherwise it gets the span that the duration coercer
    reads, and a text the coercer rejects fails the parse with a
    configuration error naming exactly that key.  Called directly, the
    factory function refuses a prefix that does not end with a dot
    before it reads anything. *)
Theorem HvacClient_timeout {S : Type} (re : engine) (secrets_store : S)
    (key_path : string) (raw_config : RawConfig) :
  let key := sub_key_path key_path "timeout" in
  let text := raw_get raw_config key EmptyString in
  (text = EmptyString ->
   HvacClient_parse re secrets_store key_path raw_config =
   ([RawGet key],
    Returns (mk_HvacContextFactory secrets_store
               (VTimedelta (mk_timedelta 0 1 0))))) /\
  (forall v,
      text <> EmptyString -> Timespan text = ([], Returns v) ->
      HvacClient_parse re secrets_store key_path raw_config =
      ([RawGet key], Returns (mk_HvacContextFactory secrets_store v))) /\
  (forall e,
      text <> EmptyString -> Timespan text = ([], Raises e) ->
      HvacClient_parse re secrets_store key_path raw_config =
      ([RawGet key], Raises (ConfigurationError key e))) /\
  (forall prefix,
      endswith "." prefix = false ->
      hvac_factory_from_config re raw_config secrets_store prefix =
      ([], Raises (AssertionError EmptyString))).
Proof.
  intros key text. unfold HvacClient_parse.
  rewrite hvac_factory_prefix. fold key. fold text.
  split; [|split; [|split]].
  - intros ->. reflexivity.
  - intros v Hne Hv. unfold Optional.
    destruct text; [congruence|]. rewrite Hv. reflexivity.
  - intros e Hne He. unfold Optional.
    destruct text; [congruence|]. rewrite He.
    unfold except_Exception. rewrite (Timespan_raises_Exception _ _ _ He).
    reflexivity.
  - intros prefix Hprefix. unfold hvac_factory_from_config.
    rewrite Hprefix. reflexivity.
Qed.

Lemma HvacClient_timeout_witness :
  HvacClient_parse re_compile_literal tt "vault" [("vault.url", "x")] =
    ([RawGet "vault.timeout"],
     Returns (mk_HvacContextFactory tt (VTimedelta (mk_timedelta 0 1 0)))) /\
  HvacClient_parse re_compile_literal tt "vault" [("vault.timeout", "5 seconds")] =
    ([RawGet "vault.timeout"],
     Returns (mk_HvacContextFactory tt (VTimedelta (mk_timedelta 0 5 0)))) /\
  HvacClient_parse re_compile_literal tt "vault" [("vault.timeout", "soon")] =
    ([RawGet "vault.timeout"],
     Raises (ConfigurationError "vault.timeout"
               (ValueError "invalid specification"))) /\
  hvac_factory_from_config re_compile_literal [] tt "vault" =
    ([], Raises (AssertionError EmptyString)).
Proof.
  split; [|split; [|split]].
  - apply (proj1 (HvacClient_timeout re_compile_literal tt "vault"
                    [("vault.url", "x")])).
    reflexivity.
  - apply (proj1 (proj2 (HvacClient_timeout re_compile_literal tt "vault"
                           [("vault.timeout", "5 seconds")])));
      [discriminate | reflexivity].
  - apply (proj1 (proj2 (proj2 (HvacClient_timeout re_compile_literal tt "vault"
                                  [("vault.timeout", "soon")]))));
      [discriminate | reflexivity].
  - apply (proj2 (proj2 (proj2 (HvacClient_timeout re_compile_literal tt "vault"
                                  [])))).
    reflexivity.
Defined.

(** ** Missing keys *)

(** A key that is missing from the raw configuration, or present with
    an empty text, gives the default of an optional field without any
    call of the wrapped parser, and fails a text field with a
    configuration error that names the key. *)
Theorem missing_key (re : engine) (item_parser : callable) (default : value)
    (key_path : string) (raw_config : RawConfig) :
  raw_get raw_config key_path EmptyString = EmptyString ->
  parse re (CallableParser (Optional item_parser default)) key_path raw_config =
    ([RawGet key_path], Returns default) /\
  parse re (CallableParser String) key_path raw_config =
    ([RawGet key_path],
     Raises (ConfigurationError key_path (ValueError "no value specified"))).
Proof.
  intros H. simpl. unfold CallableParser_parse. rewrite H. split; reflexivity.
Qed.

Lemma missing_key_witness :
  parse re_compile_literal
    (CallableParser (Optional (traced "item" Integer) (VInt 9001)))
    "optional" [("simple", "true")] =
    ([RawGet "optional"], Returns (VInt 9001)) /\
  parse re_compile_literal (CallableParser String) "optional"
    [("simple", "true")] =
    ([RawGet "optional"],
     Raises (ConfigurationError "optional" (ValueError "no value specified"))).
Proof.
  apply missing_key. reflexivity.
Defined.

End config.
